(** * Graph consolidation engine of the knowledge-graph backend

    Shallow embedding of the consolidation workflow of
    [internal/database] (ConsolidateGraph and its helpers) and of the
    similarity helper [cosineSimilarity].  Go values are modelled as
    follows:
    - [float32]/[float64] as IEEE-754 binary32/binary64 [spec_float]s
      with round-to-nearest-even (only where a claim depends on rounding);
    - embeddings inside the graph store with exact rationals [Q];
    - the Neo4j store as lists of node and relationship records, a
      Cypher query as a function on the store;
    - Go's [(T, error)] returns as [result T]. *)

From Stdlib Require Import ZArith QArith List String Bool Lia.
From Stdlib Require Import Floats.SpecFloat Permutation DecimalString.
Import ListNotations.

(** A Go [(T, error)] return. *)
Inductive result (A : Type) : Type :=
| Ok (a : A)
| Err (msg : string).
Arguments Ok {A} a.
Arguments Err {A} msg.

(** ** Floating point: [cosineSimilarity] (handlers, embedding helpers) *)
Module Float.

(** binary32: 24-bit mantissa, emax 128; binary64: 53-bit, emax 1024. *)
Definition mul32 := SFmul 24 128.
Definition add64 := SFadd 53 1024.
Definition mul64 := SFmul 53 1024.
Definition div64 := SFdiv 53 1024.
Definition sqrt64 := SFsqrt 53 1024.
Definition eq64 := SFeqb.

(** [float64(x)] for a float32 [x]: exact, re-normalised to binary64. *)
Definition to64 (x : spec_float) : spec_float :=
  match x with
  | S754_finite s m e => binary_normalize 53 1024 (cond_Zopp s (Zpos m)) e false
  | _ => x
  end.

Definition zero64 : spec_float := S754_zero false.
Definition one64 : spec_float := binary_normalize 53 1024 1 0 false.

(** The float32 value [n * 2^e]. *)
Definition f32 (n e : Z) : spec_float := binary_normalize 24 128 n e false.

(** The loop of [cosineSimilarity]:
    [dotProduct += float64(a[i] * b[i])] and so on; the product is
    rounded to float32 before the conversion. *)
Fixpoint cos_loop (a b : list spec_float) (dot am bm : spec_float)
  : spec_float * spec_float * spec_float :=
  match a, b with
  | x :: a', y :: b' =>
      cos_loop a' b'
        (add64 dot (to64 (mul32 x y)))
        (add64 am (to64 (mul32 x x)))
        (add64 bm (to64 (mul32 y y)))
  | _, _ => (dot, am, bm)
  end.

Definition cosineSimilarity (a b : list spec_float) : result spec_float :=
  if negb (Nat.eqb (List.length a) (List.length b)) then
    Err "vectors must have the same length to calculate similarity"%string
  else
    let '(dot, am, bm) := cos_loop a b zero64 zero64 zero64 in
    if eq64 am zero64 || eq64 bm zero64 then Ok zero64
    else Ok (div64 dot (mul64 (sqrt64 am) (sqrt64 bm))).

End Float.

(** ** The graph store and the node-level consolidation steps *)
Module Graph.

Local Open Scope string_scope.

(** An embedding, with its float32 entries read as exact rationals. *)
Definition Emb := list Q.

(** A node as the consolidation queries see it.  [label] is the Neo4j
    label ("System", "Stock", "Flow", "Narrative", ...); [description]
    stands for [boundary_description] on a System and [description]
    otherwise.  Properties a node may lack are options ([None] = null). *)
Record Node := mkNode {
  nid : string;
  label : string;
  name : string;
  description : string;
  embedded : option bool;
  consolidated : option bool;
  cscore : option Z;
  embedding : option Emb
}.

(** A relationship [(rfrom)-[:rtype]->(rto)]; [rprops] holds its other
    properties (e.g. [question] of a CAUSAL_LINK, [polarity] of CHANGES). *)
Record Rel := mkRel {
  rtype : string;
  rfrom : string;
  rto : string;
  rconsolidated : option bool;
  rscore : option Z;
  rprops : list (string * string)
}.

Record Store := mkStore { nodes : list Node; rels : list Rel }.

(** [models.NodeMatch]. *)
Record NodeMatch := mkMatch {
  UnconsolidatedID : string;
  ConsolidatedID : string;
  NodeType : string;
  SimilarityScore : Q;
  NewName : string;
  NewDescription : string
}.

(** The label a [nodeType] selects in every per-type query. *)
Definition label_of (t : string) : option string :=
  if String.eqb t "system" then Some "System"
  else if String.eqb t "stock" then Some "Stock"
  else if String.eqb t "flow" then Some "Flow"
  else None.

Definition node_is (L id : string) (n : Node) : bool :=
  String.eqb (label n) L && String.eqb (nid n) id.

(** [MATCH (n:L {id: $id})]: the first such node. *)
Definition find_node (st : Store) (L id : string) : option Node :=
  find (node_is L id) (nodes st).

(** [MATCH (n {id: $id})]: a node of any label. *)
Definition node_exists (st : Store) (id : string) : bool :=
  existsb (fun n => String.eqb (nid n) id) (nodes st).

(** [SET] on every node matched by [MATCH (n:L {id: $id})]. *)
Definition set_node (L id : string) (f : Node -> Node) (st : Store) : Store :=
  mkStore (map (fun n => if node_is L id n then f n else n) (nodes st)) (rels st).

Definition same_triple (t f to : string) (r : Rel) : bool :=
  String.eqb (rtype r) t && String.eqb (rfrom r) f && String.eqb (rto r) to.

Definition incident (id : string) (r : Rel) : bool :=
  String.eqb (rfrom r) id || String.eqb (rto r) id.

(** [MATCH (n {id: $id}) DETACH DELETE n]. *)
Definition detach_delete (id : string) (st : Store) : Store :=
  mkStore (filter (fun n => negb (String.eqb (nid n) id)) (nodes st))
          (filter (fun r => negb (incident id r)) (rels st)).

(** [convertEmbedding]: a missing embedding reads as the empty slice. *)
Definition convertEmbedding (e : option Emb) : Emb :=
  match e with Some v => v | None => [] end.

Definition getNodeEmbeddingAndScore (st : Store) (id t : string)
  : result (Emb * Z) :=
  match label_of t with
  | None => Err ("unknown node type: " ++ t)
  | Some L =>
      match find_node st L id with
      | None => Err ("node not found: " ++ id)
      | Some n =>
          Ok (convertEmbedding (embedding n),
              match cscore n with Some z => z | None => 0%Z end)
      end
  end.

Fixpoint zipWith {A B C : Type} (f : A -> B -> C) (a : list A) (b : list B)
  : list C :=
  match a, b with
  | x :: a', y :: b' => f x y :: zipWith f a' b'
  | _, _ => []
  end.

(** [calculateWeightedAverageEmbedding]; on a length mismatch it logs and
    returns its first argument. *)
Definition calculateWeightedAverageEmbedding (embedding1 : Emb) (weight1 : Q)
  (embedding2 : Emb) (weight2 : Q) : Emb :=
  if negb (Nat.eqb (List.length embedding1) (List.length embedding2))
  then embedding1
  else
    let totalWeight := weight1 + weight2 in
    zipWith (fun x y => (x * weight1 + y * weight2) / totalWeight)
      embedding1 embedding2.

(** [promoteNodeToConsolidated]. *)
Definition promoteNodeToConsolidated (st : Store) (id t : string)
  : result Store :=
  match label_of t with
  | None => Err ("unknown node type: " ++ t)
  | Some L =>
      Ok (set_node L id (fun n =>
            mkNode (nid n) (label n) (name n) (description n) (embedded n)
                   (Some true) (Some 1%Z) (embedding n)) st)
  end.

(** The [SET] of the merge query: new embedding, [score + 1] (null stays
    null in Cypher), and the synthesized name/description when non-empty. *)
Definition merge_update (e : Emb) (nm nd : string) (n : Node) : Node :=
  mkNode (nid n) (label n)
         (if String.eqb nm "" then name n else nm)
         (if String.eqb nd "" then description n else nd)
         (embedded n) (consolidated n)
         (option_map (Z.add 1) (cscore n)) (Some e).

(** One transferred record of [MATCH (from {id: $from_id})-[r]-(other)]:
    re-create the relationship at [c] unless one of that type already runs
    in that direction ([SET r = $props] copies every property). *)
Definition transfer_one (u c : string) (st : Store) (r : Rel) : Store :=
  let outgoing := String.eqb (rfrom r) u in
  let other := if outgoing then rto r else rfrom r in
  let '(f, t) := if outgoing then (c, other) else (other, c) in
  if node_exists st c && node_exists st other
     && negb (existsb (same_triple (rtype r) f t) (rels st))
  then mkStore (nodes st)
         (rels st ++ [mkRel (rtype r) f t (rconsolidated r) (rscore r) (rprops r)])
  else st.

Definition transfer_rels (u c : string) (st : Store) : Store :=
  fold_left (transfer_one u c) (filter (incident u) (rels st)) st.

(** [mergeIntoConsolidatedNode]. *)
Definition mergeIntoConsolidatedNode (st : Store) (m : NodeMatch)
  : result Store :=
  match getNodeEmbeddingAndScore st (UnconsolidatedID m) (NodeType m) with
  | Err e => Err e
  | Ok (eu, _) =>
  match getNodeEmbeddingAndScore st (ConsolidatedID m) (NodeType m) with
  | Err e => Err e
  | Ok (ec, sc) =>
  let newEmbedding := calculateWeightedAverageEmbedding eu 1 ec (inject_Z sc) in
  match label_of (NodeType m) with
  | None => Err ("unknown node type: " ++ NodeType m)
  | Some L =>
      let st1 := set_node L (ConsolidatedID m)
                   (merge_update newEmbedding (NewName m) (NewDescription m)) st in
      let st2 := transfer_rels (UnconsolidatedID m) (ConsolidatedID m) st1 in
      Ok (detach_delete (UnconsolidatedID m) st2)
  end
  end
  end.

(** [consolidateNodes]: a failed promotion or merge is logged and skipped. *)
Definition consolidate_one (st : Store) (m : NodeMatch) : Store :=
  let r := if String.eqb (UnconsolidatedID m) (ConsolidatedID m)
           then promoteNodeToConsolidated st (UnconsolidatedID m) (NodeType m)
           else mergeIntoConsolidatedNode st m in
  match r with Ok st' => st' | Err _ => st end.

Definition consolidateNodes (st : Store) (ms : list NodeMatch) : Store :=
  fold_left consolidate_one ms st.

End Graph.

(** ** Relationship phase, cleanup and reset *)
Module Rewire.
Import Graph.
Local Open Scope string_scope.

(** [nodeMapping]: built by assigning in match order, so a later match for
    the same id wins; kept as an association list, newest binding first. *)
Definition nodeMapping (ms : list NodeMatch) : list (string * string) :=
  fold_left (fun acc m => (UnconsolidatedID m, ConsolidatedID m) :: acc) ms [].

Fixpoint lookup (mp : list (string * string)) (k : string) : option string :=
  match mp with
  | [] => None
  | (k', v) :: mp' => if String.eqb k k' then Some v else lookup mp' k
  end.

(** [models.RelationshipConsolidation]. *)
Record RelRec := mkRelRec { RelationType : string; FromID : string; ToID : string }.

Definition unconsolidated_rel (r : Rel) : bool :=
  match rconsolidated r with Some true => false | _ => true end.

Fixpoint dedup (l : list string) : list string :=
  match l with
  | [] => []
  | x :: l' => x :: filter (fun y => negb (String.eqb y x)) (dedup l')
  end.

(** [fetchUnconsolidatedRelationships]: the distinct types of the
    unconsolidated relationships, then one record per such relationship,
    type by type. *)
Definition fetchUnconsolidatedRelationships (st : Store) : list RelRec :=
  let pending := filter unconsolidated_rel (rels st) in
  flat_map (fun t =>
      map (fun r => mkRelRec t (rfrom r) (rto r))
          (filter (fun r => String.eqb (rtype r) t) pending))
    (dedup (map rtype pending)).

Definition flag_in_place (r : Rel) : Rel :=
  mkRel (rtype r) (rfrom r) (rto r) (Some true) (Some 1%Z) (rprops r).

(** [ON MATCH SET r.consolidated = true,
     r.consolidation_score = COALESCE(r.consolidation_score, 0) + 1]. *)
Definition bump (r : Rel) : Rel :=
  mkRel (rtype r) (rfrom r) (rto r) (Some true)
        (Some (match rscore r with Some z => z | None => 0 end + 1)%Z) (rprops r).

(** [MATCH (from {id: $f}), (to {id: $t}) MERGE (from)-[r:T]->(to) ...]. *)
Definition merge_rel (t f to : string) (st : Store) : Store :=
  if node_exists st f && node_exists st to then
    if existsb (same_triple t f to) (rels st)
    then mkStore (nodes st)
           (map (fun r => if same_triple t f to r then bump r else r) (rels st))
    else mkStore (nodes st) (rels st ++ [mkRel t f to (Some true) (Some 1%Z) []])
  else st.

(** [MATCH (from {id: $f})-[r:T]->(to {id: $t}) DELETE r]. *)
Definition delete_rel (t f to : string) (st : Store) : Store :=
  mkStore (nodes st) (filter (fun r => negb (same_triple t f to r)) (rels st)).

(** Resolution of an endpoint through the mapping: canonical id and
    whether the id was in the mapping. *)
Definition resolve (mp : list (string * string)) (id : string) : string * bool :=
  match lookup mp id with Some c => (c, true) | None => (id, false) end.

(** [processRelationshipConsolidation]. *)
Definition processRelationshipConsolidation (mp : list (string * string))
  (st : Store) (rel : RelRec) : Store :=
  let '(cf, fromWas) := resolve mp (FromID rel) in
  let '(ct, toWas) := resolve mp (ToID rel) in
  if negb fromWas && negb toWas then
    mkStore (nodes st)
      (map (fun r => if same_triple (RelationType rel) (FromID rel) (ToID rel) r
                     then flag_in_place r else r) (rels st))
  else
    let st1 := merge_rel (RelationType rel) cf ct st in
    if negb (String.eqb cf (FromID rel)) || negb (String.eqb ct (ToID rel))
    then delete_rel (RelationType rel) (FromID rel) (ToID rel) st1
    else st1.

(** [consolidateRelationships]. *)
Definition consolidateRelationships (st : Store) (ms : list NodeMatch) : Store :=
  fold_left (processRelationshipConsolidation (nodeMapping ms))
    (fetchUnconsolidatedRelationships st) st.

(** [cleanupUnconsolidatedNodes]: [MATCH (n) WHERE n.consolidated = false
    DETACH DELETE n]. *)
Definition cleanupUnconsolidatedNodes (st : Store) : Store :=
  let doomed := filter (fun n => match consolidated n with
                                 | Some false => true | _ => false end) (nodes st) in
  fold_left (fun s n => detach_delete (nid n) s) doomed st.

(** [ResetConsolidation]: the three node queries, then the four
    relationship queries of its fixed list. *)
Definition reset_node_labels : list string := ["System"; "Stock"; "Flow"].
Definition reset_rel_types : list string :=
  ["DESCRIBES"; "DESCRIBES_STATIC"; "CAUSAL_LINK"; "CHANGES"].

Definition reset_node (n : Node) : Node :=
  if existsb (String.eqb (label n)) reset_node_labels
     && match embedded n with Some true => true | _ => false end
  then mkNode (nid n) (label n) (name n) (description n) (embedded n)
              (Some false) (Some 0%Z) (embedding n)
  else n.

Definition reset_rel (r : Rel) : Rel :=
  if existsb (String.eqb (rtype r)) reset_rel_types
  then mkRel (rtype r) (rfrom r) (rto r) (Some false) (Some 0%Z) (rprops r)
  else r.

Definition ResetConsolidation (st : Store) : Store :=
  mkStore (map reset_node (nodes st)) (map reset_rel (rels st)).

End Rewire.

(** ** [findNodeMatches] *)
Module Matcher.
Import Graph.
Local Open Scope string_scope.

(** float64 [0.60]: 5404319552844595 / 2^53. *)
Definition similarityThreshold : Q := 5404319552844595 # 9007199254740992.

Section Match.
(** [cosineSimilarity] on the converted embeddings; [Err] for a pair whose
    similarity cannot be computed. *)
Variable cosine : Emb -> Emb -> result Q.
Variable threshold : Q.

Definition is_processed (processed : list string) (id : string) : bool :=
  existsb (String.eqb id) processed.

Definition promotion (t id : string) : NodeMatch := mkMatch id id t 1 "" "".

(** The inner loop of the first-run branch over [j = i+1 ..]:
    [if score >= similarityThreshold && score > bestScore]. *)
Fixpoint best_partner (e1 : Emb) (rest : list Node) (processed : list string)
  (best : string * Q) : string * Q :=
  match rest with
  | [] => best
  | n2 :: rest' =>
      if is_processed processed (nid n2) then best_partner e1 rest' processed best
      else match cosine e1 (convertEmbedding (embedding n2)) with
           | Err _ => best_partner e1 rest' processed best
           | Ok score =>
               if Qle_bool threshold score && negb (Qle_bool score (snd best))
               then best_partner e1 rest' processed (nid n2, score)
               else best_partner e1 rest' processed best
           end
  end.

(** The first-run branch (no consolidated node of the type yet). *)
Fixpoint bootstrap (t : string) (ns : list Node) (processed : list string)
  : list NodeMatch :=
  match ns with
  | [] => []
  | n1 :: rest =>
      if is_processed processed (nid n1) then bootstrap t rest processed
      else
        let '(bestMatchID, bestScore) :=
          best_partner (convertEmbedding (embedding n1)) rest processed
            (nid n1, -1) in
        if negb (String.eqb bestMatchID (nid n1)) then
          mkMatch bestMatchID (nid n1) t bestScore "" ""
            :: promotion t (nid n1)
            :: bootstrap t rest (nid n1 :: bestMatchID :: processed)
        else promotion t (nid n1) :: bootstrap t rest (nid n1 :: processed)
  end.

Definition zeroMatch : NodeMatch := mkMatch "" "" "" 0 "" "".

(** The subsequent-run branch: best consolidated node by strict [>]. *)
Definition ongoing_one (t : string) (cs : list Node) (u : Node) : NodeMatch :=
  let '(bestMatch, bestScore) :=
    fold_left (fun '(bm, bs) c =>
        match cosine (convertEmbedding (embedding u)) (convertEmbedding (embedding c)) with
        | Err _ => (bm, bs)
        | Ok score =>
            if negb (Qle_bool score bs)
            then (mkMatch (nid u) (nid c) t score "" "", score)
            else (bm, bs)
        end) cs (zeroMatch, -1) in
  if Qle_bool threshold bestScore then bestMatch else promotion t (nid u).

Definition matches_for_type (t : string) (unc cons : list Node) : list NodeMatch :=
  match cons with
  | [] => bootstrap t unc []
  | _ => map (ongoing_one t cons) unc
  end.

(** [findNodeMatches]; the node types come in the (unspecified) iteration
    order of the Go map, taken here as the order of [types]. *)
Definition findNodeMatches (types : list (string * list Node))
  (consolidatedOf : string -> list Node) : list NodeMatch :=
  flat_map (fun '(t, unc) => matches_for_type t unc (consolidatedOf t)) types.

End Match.
End Matcher.

(** ** [synthesizeNamesAndDescriptions] and [ConsolidateGraph] *)
Module Orchestrator.
Import Graph.
Local Open Scope string_scope.

(** What one synthesis attempt for a merge match comes to. *)
Inductive SynthOutcome :=
| FetchFailed                   (** [fetchNodeDetails] failed for a node *)
| RequestFailed                 (** [http.NewRequestWithContext] failed *)
| NetworkError                  (** [client.Do] failed *)
| BadStatus (code : Z)          (** [StatusCode != http.StatusOK] *)
| BodyNotJSON                   (** decoding the response body failed *)
| NoText                        (** no [candidates[0].content.parts[0].text] *)
| TextNotJSON                   (** [json.Unmarshal] of the text failed *)
| Synthesized (nm nd : string). (** parsed; a missing key reads as "" *)

Definition synth_one (call : NodeMatch -> SynthOutcome) (m : NodeMatch)
  : NodeMatch :=
  if String.eqb (UnconsolidatedID m) (ConsolidatedID m) then m
  else match call m with
       | Synthesized nm nd =>
           mkMatch (UnconsolidatedID m) (ConsolidatedID m) (NodeType m)
                   (SimilarityScore m) nm nd
       | _ => m
       end.

(** [geminiApiKey] is [os.Getenv("GEMINI_API_KEY")] ("" when unset). *)
Definition synthesizeNamesAndDescriptions (geminiApiKey : string)
  (call : NodeMatch -> SynthOutcome) (ms : list NodeMatch)
  : result (list NodeMatch) :=
  if String.eqb geminiApiKey "" then Err "GEMINI_API_KEY environment variable not set"
  else Ok (map (synth_one call) ms).

Inductive Response :=
| Status500 (msg : string)
| Status200 (consolidations_performed : nat).

Section Run.
(** Steps 1 and 2 ([fetchNodesForConsolidation], [findNodeMatches]). *)
Variable Fetched : Type.
Variable fetchNodesForConsolidation : Store -> result Fetched.
Variable findNodeMatches : Fetched -> result (list NodeMatch).

(** [ConsolidateGraph]: the final store and the HTTP response. *)
Definition ConsolidateGraph (geminiApiKey : string)
  (call : NodeMatch -> SynthOutcome) (st : Store) : Store * Response :=
  match fetchNodesForConsolidation st with
  | Err e => (st, Status500 ("Failed to fetch nodes: " ++ e))
  | Ok f =>
  match findNodeMatches f with
  | Err e => (st, Status500 ("Failed to find node matches: " ++ e))
  | Ok ms =>
  match synthesizeNamesAndDescriptions geminiApiKey call ms with
  | Err e => (st, Status500 ("Failed to synthesize names: " ++ e))
  | Ok ms' =>
      let st1 := consolidateNodes st ms' in
      let st2 := Rewire.consolidateRelationships st1 ms' in
      let st3 := Rewire.cleanupUnconsolidatedNodes st2 in
      (st3, Status200 (List.length ms'))
  end
  end
  end.
End Run.

End Orchestrator.

(** ** Embedding generation (handlers: [processNodeEmbeddingsInBatch]) *)
Module Embedding.
Import Graph.
Local Open Scope string_scope.

(** [NodeForEmbedding]. *)
Record NodeForEmbedding := mkNodeForEmbedding {
  ID : string;
  NodeType : string;
  Name : string;
  Description : string;
  Text : string
}.

(** [MATCH (n:L) WHERE n.embedded = false OR n.embedded IS NULL]. *)
Definition needs_embedding (L : string) (n : Node) : bool :=
  String.eqb (label n) L &&
  match embedded n with Some true => false | _ => true end.

(** One record of [fetchUnconsolidatedNodes]: the text is the name, followed
    by [": " + description] when the description is not empty. *)
Definition for_embedding (t : string) (n : Node) : NodeForEmbedding :=
  let text := if String.eqb (description n) "" then name n
              else name n ++ ": " ++ description n in
  mkNodeForEmbedding (nid n) t (name n) (description n) text.

(** [fetchUnconsolidatedNodes]: Systems, then Stocks, then Flows. *)
Definition fetchUnconsolidatedNodes (st : Store) : list NodeForEmbedding :=
  (map (for_embedding "system") (filter (needs_embedding "System") (nodes st)) ++
   map (for_embedding "stock") (filter (needs_embedding "Stock") (nodes st)) ++
   map (for_embedding "flow") (filter (needs_embedding "Flow") (nodes st)))%list.

(** [generateEmbeddingsInBatch].  [api] is the client call
    ([genai.NewClient] and [BatchEmbedContents]): [Err] when either fails,
    [Ok None] for a nil response or nil [Embeddings], otherwise one entry
    per returned embedding, [None] for a nil one.  A nil or empty vector
    becomes a nil slice. *)
Definition generateEmbeddingsInBatch (geminiApiKey : string)
  (api : list string -> result (option (list (option Emb)))) (texts : list string)
  : result (list (option Emb)) :=
  if String.eqb geminiApiKey "" then Err "GEMINI_API_KEY environment variable not set"
  else match api texts with
       | Err e => Err e
       | Ok None => Err "received a nil response from the batch embedding API"
       | Ok (Some es) =>
           Ok (map (fun e => match e with
                             | Some (x :: v) => Some (x :: v)
                             | _ => None
                             end) es)
       end.

(** [SET n.embedding = $embedding, n.embedded = true]. *)
Definition set_embedding (v : Emb) (n : Node) : Node :=
  mkNode (nid n) (label n) (name n) (description n) (Some true)
         (consolidated n) (cscore n) (Some v).

(** One iteration of the loop of [updateNodesWithEmbeddings]: a nil
    embedding or an unknown node type is skipped. *)
Definition update_one (st : Store) (p : NodeForEmbedding * option Emb) : Store :=
  let '(n, e) := p in
  match e with
  | None => st
  | Some v =>
      match label_of (NodeType n) with
      | None => st
      | Some L => set_node L (ID n) (set_embedding v) st
      end
  end.

(** Go's [%d] of a length: its decimal digits. *)
Definition itoa (n : nat) : string := NilZero.string_of_uint (Nat.to_uint n).

(** [updateNodesWithEmbeddings]. *)
Definition updateNodesWithEmbeddings (ns : list NodeForEmbedding)
  (es : list (option Emb)) (st : Store) : result Store :=
  if negb (Nat.eqb (List.length ns) (List.length es))
  then Err ("mismatch between nodes count (" ++ itoa (List.length ns) ++
            ") and embeddings count (" ++ itoa (List.length es) ++ ")")
  else Ok (fold_left update_one (combine ns es) st).

(** [processNodeEmbeddingsInBatch]. *)
Definition processNodeEmbeddingsInBatch (geminiApiKey : string)
  (api : list string -> result (option (list (option Emb)))) (st : Store)
  : result Store :=
  match fetchUnconsolidatedNodes st with
  | [] => Ok st
  | ns =>
      match generateEmbeddingsInBatch geminiApiKey api (map Text ns) with
      | Err e => Err ("failed to generate embeddings: " ++ e)
      | Ok es => updateNodesWithEmbeddings ns es st
      end
  end.

End Embedding.

(** ** Step 1 of [ConsolidateGraph]: [fetchNodesForConsolidation] *)
Module Fetch.
Import Graph.
Local Open Scope string_scope.

(** A Go call that returns, or panics (a failed type assertion). *)
Inductive outcome (A : Type) : Type :=
| Returns (a : A)
| Panics (msg : string).
Arguments Returns {A} a.
Arguments Panics {A} msg.

(** A [map[string][]interface{}]: keys in order of first insertion. *)
Definition NodeMap := list (string * list Node).

(** [m[k] = append(m[k], x)]. *)
Fixpoint map_append (m : NodeMap) (k : string) (x : Node) : NodeMap :=
  match m with
  | [] => [(k, [x])]
  | (k', l) :: m' =>
      if String.eqb k k' then (k', (l ++ [x])%list) :: m'
      else (k', l) :: map_append m' k x
  end.

(** [m[k]]: nil for an absent key. *)
Fixpoint lookup_nodes (m : NodeMap) (k : string) : list Node :=
  match m with
  | [] => []
  | (k', l) :: m' => if String.eqb k k' then l else lookup_nodes m' k
  end.

(** [MATCH (n:L) WHERE n.embedded = true]. *)
Definition embedded_with_label (L : string) (n : Node) : bool :=
  String.eqb (label n) L && match embedded n with Some true => true | _ => false end.

(** One record: [n["consolidated"].(bool)] panics on a null flag. *)
Definition fetch_step (t : string) (acc : outcome (NodeMap * NodeMap)) (n : Node)
  : outcome (NodeMap * NodeMap) :=
  match acc with
  | Panics msg => Panics msg
  | Returns (unconsolidated, consolidatedM) =>
      match consolidated n with
      | None => Panics "interface conversion: interface {} is nil, not bool"
      | Some true => Returns (unconsolidated, map_append consolidatedM t n)
      | Some false => Returns (map_append unconsolidated t n, consolidatedM)
      end
  end.

Definition fetch_type (t L : string) (st : Store) (acc : outcome (NodeMap * NodeMap))
  : outcome (NodeMap * NodeMap) :=
  fold_left (fetch_step t) (filter (embedded_with_label L) (nodes st)) acc.

(** [fetchNodesForConsolidation]: the unconsolidated and the consolidated
    nodes, by node type. *)
Definition fetchNodesForConsolidation (st : Store) : outcome (NodeMap * NodeMap) :=
  fetch_type "flow" "Flow" st
    (fetch_type "stock" "Stock" st
       (fetch_type "system" "System" st (Returns ([], [])))).

End Fetch.

(** ** Predicates used by the statements *)
Module Spec.
Import Graph.

(** Every entry is a (signed) zero. *)
Definition all_zero (a : list spec_float) : Prop :=
  Forall (fun x => exists s, x = S754_zero s) a.

(** The float32 vectors [[1, 1, 1]] and [[2^-100]]. *)
Definition ones : list spec_float := [Float.f32 1 0; Float.f32 1 0; Float.f32 1 0].
Definition tiny : list spec_float := [Float.f32 1 (-100)].

Local Open Scope string_scope.

(** A node with the given id and label, as extraction creates it (no
    consolidation properties yet). *)
Definition fresh (id L : string) : Node :=
  mkNode id L id "" None None None None.

(** An embedded node with an embedding and a score. *)
Definition embedded_node (id L : string) (e : Emb) (sc : Z) : Node :=
  mkNode id L id "" (Some true) (Some true) (Some sc) (Some e).

(** A relationship as extraction creates it. *)
Definition fresh_rel (t f to : string) (props : list (string * string)) : Rel :=
  mkRel t f to None None props.

Definition merge_match (u c t : string) : NodeMatch := mkMatch u c t 1 "" "".

(** Two CAUSAL_LINK questions whose sources both consolidate into [x]. *)
Definition causal_store : Store :=
  mkStore [fresh "a" "Stock"; fresh "b" "Stock"; fresh "x" "Stock"; fresh "c" "Stock"]
          [fresh_rel "CAUSAL_LINK" "a" "c" [("question", "q1")];
           fresh_rel "CAUSAL_LINK" "b" "c" [("question", "q2")]].
Definition causal_matches : list NodeMatch :=
  [merge_match "a" "x" "stock"; merge_match "b" "x" "stock"].

(** A DESCRIBES edge between two nodes absent from the mapping. *)
Definition untouched_store : Store :=
  mkStore [fresh "n1" "Narrative"; fresh "s1" "System"]
          [fresh_rel "DESCRIBES" "n1" "s1" []].

(** The graph after a run: every relationship type flagged. *)
Definition consolidated_rel (t f to : string) : Rel :=
  mkRel t f to (Some true) (Some 1%Z) [].
Definition after_run_store : Store :=
  mkStore [embedded_node "s1" "System" [1] 1; embedded_node "s2" "System" [1] 1;
           embedded_node "f1" "Flow" [1] 1]
          [consolidated_rel "CONSTITUTES" "s1" "s2";
           consolidated_rel "DESCRIBES_DYNAMIC" "f1" "s2"].

(** Two identical DESCRIBES edges (two calls of the CREATE handler). *)
Definition parallel_store : Store :=
  mkStore [fresh "n1" "Narrative"; embedded_node "s1" "System" [1] 0]
          [fresh_rel "DESCRIBES" "n1" "s1" []; fresh_rel "DESCRIBES" "n1" "s1" []].
Definition parallel_matches : list NodeMatch :=
  [Matcher.promotion "system" "s1"].

(** A canonical Stock [c] (score 1) and two Stocks merged into it. *)
Definition seq_store : Store :=
  mkStore [embedded_node "c" "Stock" [2; 0] 1; embedded_node "u1" "Stock" [0; 2] 0;
           embedded_node "u2" "Stock" [1; 1] 0] [].
Definition seq_matches : list NodeMatch :=
  [merge_match "u1" "c" "stock"; merge_match "u2" "c" "stock"].

(** A merge whose two embeddings differ in length; [u] has a
    DESCRIBES_STATIC edge to the System [s]. *)
Definition mismatch_store : Store :=
  mkStore [embedded_node "c" "Stock" [1; 2] 1; embedded_node "u" "Stock" [3] 0;
           embedded_node "s" "System" [5] 1]
          [fresh_rel "DESCRIBES_STATIC" "u" "s" []].

(** The pieces of a successful [mergeIntoConsolidatedNode]. *)
Definition score0 (n : Node) : Z := match cscore n with Some z => z | None => 0%Z end.

Definition merged_embedding (nu nc : Node) : Emb :=
  calculateWeightedAverageEmbedding (convertEmbedding (embedding nu)) 1
    (convertEmbedding (embedding nc)) (inject_Z (score0 nc)).

Definition merge_result (st : Store) (m : NodeMatch) (L : string) (nu nc : Node) : Store :=
  detach_delete (UnconsolidatedID m)
    (transfer_rels (UnconsolidatedID m) (ConsolidatedID m)
       (set_node L (ConsolidatedID m)
          (merge_update (merged_embedding nu nc) (NewName m) (NewDescription m)) st)).

(** A similarity for concrete runs of the matcher: the dot product. *)
Definition dot_similarity (a b : Emb) : result Q :=
  Ok (fold_right Qplus 0 (zipWith Qmult a b)).

(** Three Stocks of a first run: [n3] is close to [n1], [n2] to neither. *)
Definition boot_nodes : list Node :=
  [embedded_node "n1" "Stock" [1; 0] 0; embedded_node "n2" "Stock" [0; 1] 0;
   embedded_node "n3" "Stock" [1; 0] 0].

(** Exact vector arithmetic on embeddings, to state the weighted mean. *)
Definition vadd (a b : Emb) : Emb := zipWith Qplus a b.
Definition vscale (k : Q) (a : Emb) : Emb := map (Qmult k) a.
Definition veq : Emb -> Emb -> Prop := Forall2 Qeq.

(** The weighted mean of [ec] with weight [s] and each of [eus] with
    weight 1: [(s * ec + sum eus) / (s + |eus|)]. *)
Definition weighted_mean (s : Q) (ec : Emb) (eus : list Emb) : Emb :=
  vscale (/ (s + inject_Z (Z.of_nat (List.length eus))))
    (fold_left vadd eus (vscale s ec)).

(** Identity of a relationship for de-duplication. *)
Definition triple (r : Rel) : string * string * string := (rtype r, rfrom r, rto r).

(** The effect of one entry of [updateNodesWithEmbeddings] on one node. *)
Definition embed_step (n : Node) (p : Embedding.NodeForEmbedding * option Emb) : Node :=
  match snd p, label_of (Embedding.NodeType (fst p)) with
  | Some v, Some L =>
      if node_is L (Embedding.ID (fst p)) n then Embedding.set_embedding v n else n
  | _, _ => n
  end.

(** [n'] is [n] up to its [embedding] and [embedded] properties. *)
Definition same_but_embedding (n n' : Node) : Prop :=
  nid n' = nid n /\ label n' = label n /\ name n' = name n /\
  description n' = description n /\ consolidated n' = consolidated n /\
  cscore n' = cscore n.

(** The labels the embedding pipeline and the consolidation work on. *)
Definition entity_labels : list string := ["System"; "Stock"; "Flow"].

(** A Narrative, a System waiting for its embedding and the edge between them. *)
Definition pending_store : Store :=
  mkStore [fresh "n1" "Narrative"; fresh "s1" "System"]
          [fresh_rel "DESCRIBES" "n1" "s1" []].

(** An embedding API that answers every batch with [out]. *)
Definition batch_api (out : list (option Emb)) (texts : list string)
  : result (option (list (option Emb))) := Ok (Some out).

(** The node's [consolidated] property is set and equal to [b]. *)
Definition consolidated_is (b : bool) (n : Node) : bool :=
  match consolidated n with Some b' => Bool.eqb b' b | None => false end.

(** The state of the search loop of [Matcher.ongoing_one] for node [u]:
    nothing found yet, or the match with a consolidated node [c] of [cons]
    and its similarity. *)
Definition best_state (cosine : Emb -> Emb -> result Q) (t : string) (cons : list Node)
  (u : Node) (acc : NodeMatch * Q) : Prop :=
  acc = (Matcher.zeroMatch, (-1)%Q) \/
  exists c, In c cons /\
    cosine (convertEmbedding (embedding u)) (convertEmbedding (embedding c)) = Ok (snd acc) /\
    fst acc = mkMatch (nid u) (nid c) t (snd acc) "" "".


(** Every entity node embedded; a Narrative node without embedding. *)
Definition embedded_store : Store :=
  mkStore [embedded_node "s1" "System" [1] 1; fresh "n1" "Narrative"]
          [fresh_rel "DESCRIBES" "n1" "s1" []].

(** An embedded node still waiting for consolidation. *)
Definition unconsolidated_node (id L : string) (e : Emb) : Node :=
  mkNode id L id "" (Some true) (Some false) (Some 0%Z) (Some e).

(** A graph left with an unconsolidated Stock [u] next to a consolidated
    Stock [c] and a Narrative [n]. *)
Definition cleanup_store : Store :=
  mkStore [unconsolidated_node "u" "Stock" [1]; embedded_node "c" "Stock" [1] 1;
           fresh "n" "Narrative"]
          [fresh_rel "CHANGES" "u" "c" []; fresh_rel "DESCRIBES" "n" "c" [];
           fresh_rel "DESCRIBES" "n" "u" []].

(** A run in which [a] merges into [x] and the Flow [b] gets no match. *)
Definition run_store : Store :=
  mkStore [unconsolidated_node "a" "Stock" [1; 0]; embedded_node "x" "Stock" [0; 1] 1;
           unconsolidated_node "b" "Flow" [1]; fresh "n" "Narrative"]
          [fresh_rel "DESCRIBES" "n" "a" []; fresh_rel "DESCRIBES" "n" "b" []].
Definition run_matches : list NodeMatch := [merge_match "a" "x" "stock"].

(** Two unconsolidated Stocks and two consolidated ones for the
    subsequent-run matcher. *)
Definition ongoing_unc : list Node :=
  [unconsolidated_node "u1" "Stock" [0; 1]; unconsolidated_node "u2" "Stock" [0; 0]].
Definition ongoing_cons : list Node :=
  [embedded_node "c1" "Stock" [1; 0] 1; embedded_node "c2" "Stock" [0; 1] 1].

End Spec.

(** * Properties *)

Section CosineProofs.
Import Float.

Lemma add64_zero_zero : add64 zero64 zero64 = zero64.
Proof. reflexivity. Qed.

Lemma square_zero32 (s : bool) : to64 (mul32 (S754_zero s) (S754_zero s)) = zero64.
Proof. destruct s; reflexivity. Qed.

Lemma cos_loop_zero_left (a b : list spec_float) (dot bm : spec_float) :
  Spec.all_zero a ->
  snd (fst (cos_loop a b dot zero64 bm)) = zero64.
Proof.
  revert b dot bm. induction a as [|x a IH]; intros b dot bm Hz; [reflexivity|].
  destruct b as [|y b]; [reflexivity|].
  inversion Hz as [|? ? [s ->] Hz']; subst.
  cbn [cos_loop]. rewrite square_zero32, add64_zero_zero. apply IH; exact Hz'.
Qed.

Lemma cos_loop_zero_right (a b : list spec_float) (dot am : spec_float) :
  Spec.all_zero b ->
  snd (cos_loop a b dot am zero64) = zero64.
Proof.
  revert a dot am. induction b as [|y b IH]; intros a dot am Hz;
    [destruct a; reflexivity|].
  destruct a as [|x a]; [reflexivity|].
  inversion Hz as [|? ? [s ->] Hz']; subst.
  cbn [cos_loop]. rewrite square_zero32, add64_zero_zero. apply IH; exact Hz'.
Qed.

End CosineProofs.

Section CosineClaims.
Import Float.

(** C6 (code defect): the docstring of [cosineSimilarity] promises a score
    between -1 and 1, but for [a = b = [1,1,1]] the float64 result is
    [1.0000000000000002], above 1 (so outside [-1,1] and not equal to 1);
    and the non-zero vector [[2^-100]] has similarity 0 with itself,
    because [a[i]*a[i]] underflows to zero in float32. *)
Lemma cosineSimilarity_outside_unit_range :
  cosineSimilarity Spec.ones Spec.ones = Ok (S754_finite false 4503599627370497 (-52)) /\
  SFltb one64 (S754_finite false 4503599627370497 (-52)) = true /\
  cosineSimilarity Spec.tiny Spec.tiny = Ok zero64 /\
  ~ Spec.all_zero Spec.tiny.
Proof.
  split; [vm_compute; reflexivity|].
  split; [vm_compute; reflexivity|].
  split; [vm_compute; reflexivity|].
  intros Hz. inversion Hz as [|? ? [s Hs] _]. discriminate Hs.
Qed.

(** [cosineSimilarity] fails exactly on a length mismatch: for unequal
    lengths it returns an error, for equal lengths a value, and that value
    is 0, with no division, when either vector is all-zero. *)
Theorem cosineSimilarity_error_and_zero (a b : list spec_float) :
  (List.length a <> List.length b ->
     exists msg, cosineSimilarity a b = Err msg) /\
  (List.length a = List.length b ->
     Spec.all_zero a \/ Spec.all_zero b -> cosineSimilarity a b = Ok zero64) /\
  (List.length a = List.length b -> exists r, cosineSimilarity a b = Ok r).
Proof.
  unfold cosineSimilarity. split; [|split].
  - intros Hne. apply Nat.eqb_neq in Hne. rewrite Hne. simpl. eexists; reflexivity.
  - intros Heq Hz. rewrite Heq, Nat.eqb_refl. simpl.
    destruct (cos_loop a b zero64 zero64 zero64) as [[dot am] bm] eqn:E.
    destruct Hz as [Hz | Hz].
    + pose proof (cos_loop_zero_left a b zero64 zero64 Hz) as H.
      rewrite E in H. simpl in H. subst am. reflexivity.
    + pose proof (cos_loop_zero_right a b zero64 zero64 Hz) as H.
      rewrite E in H. simpl in H. subst bm.
      destruct (eq64 am zero64); reflexivity.
  - intros Heq. rewrite Heq, Nat.eqb_refl. simpl.
    destruct (cos_loop a b zero64 zero64 zero64) as [[dot am] bm].
    destruct (eq64 am zero64 || eq64 bm zero64); eexists; reflexivity.
Qed.

Lemma cosineSimilarity_error_and_zero_witness :
  List.length [f32 0 0; f32 0 0] = List.length [f32 3 0; f32 5 (-1)] /\
  cosineSimilarity [f32 0 0; f32 0 0] [f32 3 0; f32 5 (-1)] = Ok zero64.
Proof.
  split; [reflexivity|].
  apply (proj1 (proj2 (cosineSimilarity_error_and_zero
                         [f32 0 0; f32 0 0] [f32 3 0; f32 5 (-1)]))).
  - reflexivity.
  - left. repeat constructor; exists false; reflexivity.
Defined.

End CosineClaims.

Section RewireProofs.
Import Graph Rewire.
Local Open Scope string_scope.

Lemma same_triple_spec (t f to : string) (r : Rel) :
  same_triple t f to r = true <-> Spec.triple r = (t, f, to).
Proof.
  unfold same_triple, Spec.triple. rewrite !andb_true_iff, !String.eqb_eq.
  split; [intros [[-> ->] ->]; reflexivity|].
  intros H; inversion H; auto.
Qed.

Lemma same_triple_false (t f to : string) (r : Rel) :
  Spec.triple r <> (t, f, to) -> same_triple t f to r = false.
Proof.
  intros H. destruct (same_triple t f to r) eqn:E; [|reflexivity].
  apply same_triple_spec in E. contradiction.
Qed.

Lemma resolve_unmapped (mp : list (string * string)) (x y : string) :
  resolve mp x = (y, false) -> y = x.
Proof. unfold resolve. destruct (lookup mp x); intros H; inversion H; auto. Qed.

(** A relationship whose canonical endpoints differ from its own goes
    through the MERGE and then the deletion of the original. *)
Lemma process_changed (mp : list (string * string)) (st : Store) (rel : RelRec)
  (cf ct : string) (bf bt : bool) :
  resolve mp (FromID rel) = (cf, bf) -> resolve mp (ToID rel) = (ct, bt) ->
  (cf, ct) <> (FromID rel, ToID rel) ->
  processRelationshipConsolidation mp st rel =
  delete_rel (RelationType rel) (FromID rel) (ToID rel)
    (merge_rel (RelationType rel) cf ct st).
Proof.
  intros Hf Ht Hne. unfold processRelationshipConsolidation. rewrite Hf, Ht.
  destruct bf, bt; simpl;
    try (assert (cf = FromID rel) by (eapply resolve_unmapped; eauto));
    try (assert (ct = ToID rel) by (eapply resolve_unmapped; eauto));
    try (subst; congruence);
    destruct (String.eqb_spec cf (FromID rel)), (String.eqb_spec ct (ToID rel));
    simpl; try reflexivity; subst; congruence.
Qed.

Lemma existsb_same_triple_false (t f to : string) (l : list Rel) :
  ~ In (t, f, to) (map Spec.triple l) ->
  existsb (same_triple t f to) l = false.
Proof.
  induction l as [|r l IH]; simpl; [reflexivity|]. intros H.
  rewrite same_triple_false by (intros E; apply H; left; exact E).
  apply IH. intros E; apply H; right; exact E.
Qed.

Lemma existsb_same_triple_true (t f to : string) (l : list Rel) :
  existsb (same_triple t f to) l = true -> In (t, f, to) (map Spec.triple l).
Proof.
  intros H. apply existsb_exists in H as [r [Hin Hs]].
  apply same_triple_spec in Hs. rewrite <- Hs. apply in_map. exact Hin.
Qed.

Lemma merge_rel_nodes (t f to : string) (st : Store) :
  nodes (merge_rel t f to st) = nodes st.
Proof.
  unfold merge_rel. destruct (node_exists st f && node_exists st to); [|reflexivity].
  destruct (existsb (same_triple t f to) (rels st)); reflexivity.
Qed.

Lemma merge_rel_absent (t f to : string) (st : Store) :
  node_exists st f = true -> node_exists st to = true ->
  existsb (same_triple t f to) (rels st) = false ->
  rels (merge_rel t f to st) = (rels st ++ [mkRel t f to (Some true) (Some 1%Z) []])%list.
Proof. intros Hf Ht Hx. unfold merge_rel. rewrite Hf, Ht, Hx. reflexivity. Qed.

Lemma merge_rel_present (t f to : string) (st : Store) :
  node_exists st f = true -> node_exists st to = true ->
  existsb (same_triple t f to) (rels st) = true ->
  rels (merge_rel t f to st) =
  map (fun r => if same_triple t f to r then bump r else r) (rels st).
Proof. intros Hf Ht Hx. unfold merge_rel. rewrite Hf, Ht, Hx. reflexivity. Qed.

Lemma same_triple_refl (r : Rel) : same_triple (rtype r) (rfrom r) (rto r) r = true.
Proof. apply same_triple_spec. reflexivity. Qed.

Lemma pair_neq_triple (t f to f' to' : string) :
  (f, to) <> (f', to') -> (t, f, to) <> (t, f', to').
Proof. intros H E. inversion E. subst. apply H. reflexivity. Qed.

Lemma same_triple_bump (t f to : string) (r : Rel) :
  same_triple t f to (bump r) = same_triple t f to r.
Proof. reflexivity. Qed.

Lemma same_triple_two (t f to f' to' : string) (r : Rel) :
  (f, to) <> (f', to') -> same_triple t f to r = true -> same_triple t f' to' r = false.
Proof.
  intros Hne H. apply same_triple_false. apply same_triple_spec in H. rewrite H.
  apply pair_neq_triple. exact Hne.
Qed.

Lemma filter_none_filter {A : Type} (p q : A -> bool) (l : list A) :
  existsb p l = false -> filter p (filter q l) = [].
Proof.
  induction l as [|x l IH]; simpl; [reflexivity|]. intros H.
  apply orb_false_iff in H. destruct H as [Hx H].
  destruct (q x); simpl; rewrite ?Hx; apply IH; exact H.
Qed.

(** One relationship whose canonical endpoints differ from its own, with
    both canonical endpoints present: MERGE at the canonical triple, then
    deletion at the original one. *)
Lemma changed_step (mp : list (string * string)) (st : Store) (rel : RelRec)
  (cf ct : string) :
  fst (resolve mp (FromID rel)) = cf -> fst (resolve mp (ToID rel)) = ct ->
  (cf, ct) <> (FromID rel, ToID rel) ->
  node_exists st cf = true -> node_exists st ct = true ->
  let t := RelationType rel in
  let st' := processRelationshipConsolidation mp st rel in
  nodes st' = nodes st /\
  (forall r, In r (rels st') -> same_triple t (FromID rel) (ToID rel) r = false) /\
  (forall r, In r (rels st') -> same_triple t cf ct r = false -> In r (rels st)) /\
  (existsb (same_triple t cf ct) (rels st) = true ->
     filter (same_triple t cf ct) (rels st') =
       map bump (filter (same_triple t cf ct) (rels st))) /\
  (existsb (same_triple t cf ct) (rels st) = false ->
     filter (same_triple t cf ct) (rels st') = [mkRel t cf ct (Some true) (Some 1%Z) []]).
Proof.
  intros Hf Ht Hne Ecf Ect t st'.
  destruct (resolve mp (FromID rel)) as [x bf] eqn:R1.
  destruct (resolve mp (ToID rel)) as [y bt] eqn:R2.
  simpl in Hf, Ht. subst x y.
  assert (Hst' : st' = delete_rel t (FromID rel) (ToID rel) (merge_rel t cf ct st))
    by exact (process_changed mp st rel cf ct bf bt R1 R2 Hne).
  assert (Hko : forall r, same_triple t cf ct r = true ->
                          same_triple t (FromID rel) (ToID rel) r = false)
    by (intros r; apply same_triple_two; exact Hne).
  rewrite Hst'. unfold delete_rel. cbn [nodes rels].
  split; [apply merge_rel_nodes|].
  split.
  { intros r Hr. apply filter_In in Hr. destruct Hr as [_ Hr].
    destruct (same_triple t (FromID rel) (ToID rel) r); [discriminate|reflexivity]. }
  destruct (existsb (same_triple t cf ct) (rels st)) eqn:Ex.
  - rewrite (merge_rel_present t cf ct st Ecf Ect Ex).
    split; [|split; [|discriminate]].
    + intros r Hr Hk. apply filter_In in Hr. destruct Hr as [Hr _].
      apply in_map_iff in Hr. destruct Hr as [r0 [E Hr0]].
      destruct (same_triple t cf ct r0) eqn:H0.
      * subst r. rewrite same_triple_bump, H0 in Hk. discriminate.
      * subst r. exact Hr0.
    + intros _. clear Ex. induction (rels st) as [|r l IH]; [reflexivity|].
      cbn [map filter]. destruct (same_triple t cf ct r) eqn:H0.
      * rewrite same_triple_bump, (Hko r H0). cbn [negb filter].
        rewrite same_triple_bump, H0. cbn [map]. rewrite IH. reflexivity.
      * destruct (same_triple t (FromID rel) (ToID rel) r); cbn [negb filter];
          rewrite ?H0; exact IH.
  - rewrite (merge_rel_absent t cf ct st Ecf Ect Ex).
    assert (Hn : same_triple t cf ct (mkRel t cf ct (Some true) (Some 1%Z) []) = true)
      by (apply same_triple_spec; reflexivity).
    split; [|split; [discriminate|]].
    + intros r Hr Hk. apply filter_In in Hr. destruct Hr as [Hr _].
      apply in_app_or in Hr. destruct Hr as [Hr | [<- | []]]; [exact Hr|].
      rewrite Hn in Hk. discriminate.
    + intros _. rewrite filter_app, filter_app, filter_none_filter by exact Ex.
      cbn [filter]. rewrite (Hko _ Hn). cbn [negb filter app]. rewrite Hn. reflexivity.
Qed.

(** C1 (amended): there is no evidence list; CAUSAL_LINK is rewired like
    every other type.  For a relationship of any type whose canonical
    endpoints [cf], [ct] differ from its own and both exist: the nodes are
    unchanged; no relationship is left at the original (type, from, to);
    every relationship away from the canonical triple was there before; if
    an edge existed at the canonical triple, the edges there are exactly the
    old ones with [consolidated = true] and their score plus one, other
    properties kept, none added; otherwise exactly one new edge is there,
    carrying only [consolidated = true] and score 1.  So a second such
    relationship of the same type, processed next onto the same canonical
    pair where no edge existed, leaves exactly one edge there, with score 2
    and no question of the originals. *)
Theorem causal_links_merge_without_evidence (mp : list (string * string)) (st : Store)
  (rel : RelRec) (cf ct : string) :
  fst (resolve mp (FromID rel)) = cf -> fst (resolve mp (ToID rel)) = ct ->
  (cf, ct) <> (FromID rel, ToID rel) ->
  node_exists st cf = true -> node_exists st ct = true ->
  let t := RelationType rel in
  let st' := processRelationshipConsolidation mp st rel in
  nodes st' = nodes st /\
  (forall r, In r (rels st') -> same_triple t (FromID rel) (ToID rel) r = false) /\
  (forall r, In r (rels st') -> same_triple t cf ct r = false -> In r (rels st)) /\
  (existsb (same_triple t cf ct) (rels st) = true ->
     filter (same_triple t cf ct) (rels st') =
       map bump (filter (same_triple t cf ct) (rels st))) /\
  (existsb (same_triple t cf ct) (rels st) = false ->
     filter (same_triple t cf ct) (rels st') = [mkRel t cf ct (Some true) (Some 1%Z) []]) /\
  (forall rel2, RelationType rel2 = t ->
     fst (resolve mp (FromID rel2)) = cf -> fst (resolve mp (ToID rel2)) = ct ->
     (cf, ct) <> (FromID rel2, ToID rel2) ->
     existsb (same_triple t cf ct) (rels st) = false ->
     filter (same_triple t cf ct) (rels (processRelationshipConsolidation mp st' rel2)) =
       [mkRel t cf ct (Some true) (Some 2%Z) []]).
Proof.
  intros Hf Ht Hne Ecf Ect t st'.
  destruct (changed_step mp st rel cf ct Hf Ht Hne Ecf Ect) as (N & D & K & P & A).
  fold t st' in N, D, K, P, A.
  split; [exact N|]. split; [exact D|]. split; [exact K|]. split; [exact P|].
  split; [exact A|].
  intros rel2 Ht2 Hf2 Hto2 Hne2 Ex.
  assert (Ex' : forall x, node_exists st' x = node_exists st x)
    by (intros x; unfold node_exists; rewrite N; reflexivity).
  destruct (changed_step mp st' rel2 cf ct Hf2 Hto2 Hne2) as (_ & _ & _ & P2 & _);
    rewrite ?Ex'; auto.
  rewrite Ht2 in P2. rewrite P2, (A Ex); [reflexivity|].
  apply existsb_exists. exists (mkRel t cf ct (Some true) (Some 1%Z) []).
  split; [|apply same_triple_spec; reflexivity].
  assert (Hin : In (mkRel t cf ct (Some true) (Some 1%Z) [])
                  (filter (same_triple t cf ct) (rels st')))
    by (rewrite (A Ex); left; reflexivity).
  apply filter_In in Hin. apply Hin.
Qed.

Lemma causal_links_merge_without_evidence_witness :
  filter (same_triple "CAUSAL_LINK" "x" "c")
    (rels (consolidateRelationships Spec.causal_store Spec.causal_matches)) =
    [mkRel "CAUSAL_LINK" "x" "c" (Some true) (Some 2%Z) []].
Proof.
  change (consolidateRelationships Spec.causal_store Spec.causal_matches) with
    (processRelationshipConsolidation (nodeMapping Spec.causal_matches)
       (processRelationshipConsolidation (nodeMapping Spec.causal_matches)
          Spec.causal_store (mkRelRec "CAUSAL_LINK" "a" "c"))
       (mkRelRec "CAUSAL_LINK" "b" "c")).
  assert (H := causal_links_merge_without_evidence (nodeMapping Spec.causal_matches)
              Spec.causal_store (mkRelRec "CAUSAL_LINK" "a" "c") "x" "c"
              eq_refl eq_refl ltac:(discriminate) eq_refl eq_refl).
  destruct H as (_ & _ & _ & _ & _ & H2).
  apply H2; first [reflexivity | discriminate].
Defined.

End RewireProofs.

Section RewireClaims.
Import Graph Rewire.
Local Open Scope string_scope.

(** C1 (as stated, refuted): two CAUSAL_LINK questions [q1] and [q2] whose
    sources both map to [x] end as one edge [x -> c] with score 2 and no
    question property; no evidence list holding [q1] and [q2] exists. *)
Lemma causal_links_no_evidence_list :
  rels (consolidateRelationships Spec.causal_store Spec.causal_matches) =
    [mkRel "CAUSAL_LINK" "x" "c" (Some true) (Some 2%Z) []] /\
  ~ (exists r, In r (rels (consolidateRelationships Spec.causal_store Spec.causal_matches))
               /\ In ("question", "q1") (rprops r)).
Proof.
  assert (H : rels (consolidateRelationships Spec.causal_store Spec.causal_matches) =
                [mkRel "CAUSAL_LINK" "x" "c" (Some true) (Some 2%Z) []])
    by reflexivity.
  split; [exact H|]. rewrite H. intros [r [[<- | []] Hq]]. destruct Hq.
Qed.

(** C3 (as stated, refuted): an edge between two nodes absent from the
    mapping, created without a score, gets consolidation score 1. *)
Lemma unmapped_edge_score_set :
  map rscore (rels Spec.untouched_store) = [None] /\
  map rscore (rels (consolidateRelationships Spec.untouched_store [])) = [Some 1%Z].
Proof. split; reflexivity. Qed.

Lemma nth_error_map_if {A : Type} (p : A -> bool) (g : A -> A) (l : list A) (i : nat) (x : A) :
  nth_error l i = Some x ->
  nth_error (map (fun y => if p y then g y else y) l) i = Some (if p x then g x else x).
Proof. intros H. rewrite nth_error_map, H. reflexivity. Qed.

(** C3 (amended): when neither endpoint is in the mapping, the step keeps
    every node and the list of relationships position by position; each
    relationship at the [(type, from, to)] of the record keeps its type,
    endpoints and other properties and gets [consolidated = true] and
    consolidation score 1; every other relationship is untouched. *)
Theorem unmapped_edge_flagged_in_place (ms : list NodeMatch) (st : Store) (rel : RelRec) :
  lookup (nodeMapping ms) (FromID rel) = None ->
  lookup (nodeMapping ms) (ToID rel) = None ->
  let st' := processRelationshipConsolidation (nodeMapping ms) st rel in
  nodes st' = nodes st /\
  List.length (rels st') = List.length (rels st) /\
  forall i r, nth_error (rels st) i = Some r ->
    exists r', nth_error (rels st') i = Some r' /\
      rtype r' = rtype r /\ rfrom r' = rfrom r /\ rto r' = rto r /\
      rprops r' = rprops r /\
      (if same_triple (RelationType rel) (FromID rel) (ToID rel) r
       then rconsolidated r' = Some true /\ rscore r' = Some 1%Z
       else r' = r).
Proof.
  intros Hf Ht st'.
  assert (Hst' : st' = mkStore (nodes st)
            (map (fun r => if same_triple (RelationType rel) (FromID rel) (ToID rel) r
                           then flag_in_place r else r) (rels st))).
  { unfold st', processRelationshipConsolidation, resolve. rewrite Hf, Ht. reflexivity. }
  rewrite Hst'. simpl. split; [reflexivity|]. split; [apply length_map|].
  intros i r Hi. eexists. split; [apply (nth_error_map_if _ _ _ _ _ Hi)|].
  destruct (same_triple (RelationType rel) (FromID rel) (ToID rel) r); simpl;
    repeat split; reflexivity.
Qed.

Lemma unmapped_edge_flagged_in_place_witness :
  lookup (nodeMapping []) "n1" = None /\ lookup (nodeMapping []) "s1" = None /\
  nodes (processRelationshipConsolidation (nodeMapping []) Spec.untouched_store
           (mkRelRec "DESCRIBES" "n1" "s1")) = nodes Spec.untouched_store.
Proof.
  split; [reflexivity|]. split; [reflexivity|].
  exact (proj1 (unmapped_edge_flagged_in_place [] Spec.untouched_store
                  (mkRelRec "DESCRIBES" "n1" "s1") eq_refl eq_refl)).
Defined.

(** C5 (code defect): after a run every relationship type is flagged;
    [ResetConsolidation] resets only its four listed types, so CONSTITUTES
    and DESCRIBES_DYNAMIC edges stay [consolidated = true] with score 1. *)
Theorem reset_misses_constitutes_and_dynamic :
  rels (ResetConsolidation Spec.after_run_store) =
    [Spec.consolidated_rel "CONSTITUTES" "s1" "s2";
     Spec.consolidated_rel "DESCRIBES_DYNAMIC" "f1" "s2"] /\
  map rconsolidated (rels (ResetConsolidation Spec.after_run_store)) = [Some true; Some true].
Proof. split; reflexivity. Qed.

(** C7 (as stated, refuted): two identical DESCRIBES edges created by two
    calls of the extraction handler are both kept and both flagged
    consolidated, at the same (type, from, to). *)
Lemma parallel_describes_kept :
  rels (consolidateRelationships Spec.parallel_store Spec.parallel_matches) =
    [mkRel "DESCRIBES" "n1" "s1" (Some true) (Some 2%Z) [];
     mkRel "DESCRIBES" "n1" "s1" (Some true) (Some 2%Z) []].
Proof. reflexivity. Qed.

End RewireClaims.

Section RewireInvariant.
Import Graph Rewire.
Local Open Scope string_scope.

Lemma NoDup_snoc {A : Type} (l : list A) (x : A) :
  NoDup l -> ~ In x l -> NoDup (l ++ [x]).
Proof.
  induction l as [|y l IH]; simpl; intros Hl Hx.
  - constructor; [intros []|constructor].
  - inversion Hl as [|? ? Hy Hl']; subst. constructor.
    + rewrite in_app_iff. intros [H | [H | []]]; [contradiction|].
      subst. apply Hx. left. reflexivity.
    + apply IH; auto.
Qed.

(** Deleting relationships ([delete_rel]) keeps the triples distinct. *)
Lemma filter_triples_nodup (keep : Rel -> bool) (rs : list Rel) :
  NoDup (map Spec.triple rs) -> NoDup (map Spec.triple (filter keep rs)).
Proof.
  induction rs as [|r rs IH]; cbn [map filter]; intros Hnd; [exact Hnd|].
  apply NoDup_cons_iff in Hnd. destruct Hnd as [Hr Hnd].
  destruct (keep r); cbn [map]; [|exact (IH Hnd)].
  apply NoDup_cons_iff. split; [|exact (IH Hnd)].
  intros Hin. apply Hr. apply in_map_iff in Hin as [r' [E Hin]].
  rewrite <- E. apply in_map. apply filter_In in Hin. apply Hin.
Qed.

Lemma map_triple_update (p : Rel -> bool) (g : Rel -> Rel) (l : list Rel) :
  (forall r, Spec.triple (g r) = Spec.triple r) ->
  map Spec.triple (map (fun r => if p r then g r else r) l) = map Spec.triple l.
Proof.
  intros Hg. induction l as [|r l IH]; simpl; [reflexivity|].
  rewrite IH. destruct (p r); rewrite ?Hg; reflexivity.
Qed.

Lemma merge_rel_nodup (t f to : string) (st : Store) :
  NoDup (map Spec.triple (rels st)) ->
  NoDup (map Spec.triple (rels (merge_rel t f to st))).
Proof.
  intros H. unfold merge_rel.
  destruct (node_exists st f && node_exists st to); [|exact H].
  destruct (existsb (same_triple t f to) (rels st)) eqn:E; simpl.
  - rewrite map_triple_update by reflexivity. exact H.
  - rewrite map_app. apply NoDup_snoc; [exact H|].
    intros Hin. apply in_map_iff in Hin as [r [Hr Hin]].
    assert (Hs : same_triple t f to r = true) by (apply same_triple_spec; exact Hr).
    assert (Hx : existsb (same_triple t f to) (rels st) = true)
      by (apply existsb_exists; exists r; auto).
    congruence.
Qed.

Lemma process_nodup (mp : list (string * string)) (st : Store) (rel : RelRec) :
  NoDup (map Spec.triple (rels st)) ->
  NoDup (map Spec.triple (rels (processRelationshipConsolidation mp st rel))).
Proof.
  intros H. unfold processRelationshipConsolidation.
  destruct (resolve mp (FromID rel)) as [cf bf], (resolve mp (ToID rel)) as [ct bt].
  destruct (negb bf && negb bt); simpl.
  - rewrite map_triple_update by reflexivity. exact H.
  - destruct (negb (cf =? FromID rel) || negb (ct =? ToID rel)); simpl.
    + apply filter_triples_nodup. apply merge_rel_nodup. exact H.
    + apply merge_rel_nodup. exact H.
Qed.

(** C7 (amended): the relationship phase never adds a second relationship
    at a (type, from, to): if every triple carries at most one relationship
    before it (for every type), the same holds after it. *)
Theorem rewiring_keeps_triples_unique (st : Store) (ms : list NodeMatch) :
  NoDup (map Spec.triple (rels st)) ->
  NoDup (map Spec.triple (rels (consolidateRelationships st ms))).
Proof.
  unfold consolidateRelationships.
  generalize (fetchUnconsolidatedRelationships st) as recs.
  intros recs. revert st. induction recs as [|rel recs IH]; simpl; intros st H.
  - exact H.
  - apply IH. apply process_nodup. exact H.
Qed.

Lemma rewiring_keeps_triples_unique_witness :
  NoDup (map Spec.triple (rels Spec.causal_store)) /\
  NoDup (map Spec.triple
           (rels (consolidateRelationships Spec.causal_store Spec.causal_matches))).
Proof.
  assert (H : NoDup (map Spec.triple (rels Spec.causal_store))).
  { simpl. constructor; [|constructor; [intros []|constructor]].
    intros [E | []]. inversion E. }
  split; [exact H|]. exact (rewiring_keeps_triples_unique _ _ H).
Defined.

End RewireInvariant.

Section MergeFacts.
Import Graph Spec.
Local Open Scope string_scope.

Lemma find_map_pres {A : Type} (p : A -> bool) (g : A -> A) (l : list A) :
  (forall x, p (g x) = p x) -> find p (map g l) = option_map g (find p l).
Proof.
  intros Hg. induction l as [|x l IH]; simpl; [reflexivity|].
  rewrite Hg. destruct (p x); [reflexivity|exact IH].
Qed.

Lemma find_filter_pres {A : Type} (p q : A -> bool) (l : list A) :
  (forall x, p x = true -> q x = true) -> find p (filter q l) = find p l.
Proof.
  intros Hpq. induction l as [|x l IH]; simpl; [reflexivity|].
  destruct (p x) eqn:Ep.
  - rewrite (Hpq x Ep). simpl. rewrite Ep. reflexivity.
  - destruct (q x); simpl; rewrite ?Ep; exact IH.
Qed.

Lemma find_node_is (st : Store) (L x : string) (n : Node) :
  find_node st L x = Some n -> label n = L /\ nid n = x.
Proof.
  unfold find_node. intros H. apply find_some in H as [_ H].
  unfold node_is in H. apply andb_true_iff in H as [H1 H2].
  apply String.eqb_eq in H1, H2. auto.
Qed.

Lemma node_is_iff (L x : string) (n : Node) :
  node_is L x n = true <-> label n = L /\ nid n = x.
Proof.
  unfold node_is. rewrite andb_true_iff, !String.eqb_eq. tauto.
Qed.

Lemma set_node_find (L c x : string) (f : Node -> Node) (st : Store) :
  (forall n, nid (f n) = nid n /\ label (f n) = label n) ->
  find_node (set_node L c f st) L x =
  option_map (fun n => if node_is L c n then f n else n) (find_node st L x).
Proof.
  intros Hf. unfold find_node, set_node. simpl. apply find_map_pres.
  intros n. destruct (node_is L c n); [|reflexivity].
  unfold node_is. destruct (Hf n) as [-> ->]. reflexivity.
Qed.

Lemma transfer_rels_nodes (u c : string) (st : Store) :
  nodes (transfer_rels u c st) = nodes st.
Proof.
  unfold transfer_rels. generalize (filter (incident u) (rels st)) as recs.
  intros recs. revert st. induction recs as [|r recs IH]; intros st; simpl; [reflexivity|].
  rewrite IH. unfold transfer_one.
  destruct (rfrom r =? u); cbn iota beta;
    match goal with |- context [if ?b then _ else _] => destruct b end; reflexivity.
Qed.

Lemma detach_find (u L x : string) (st : Store) :
  x <> u -> find_node (detach_delete u st) L x = find_node st L x.
Proof.
  intros Hxu. unfold find_node, detach_delete. simpl. apply find_filter_pres.
  intros n Hn. apply node_is_iff in Hn as [_ Hn]. subst.
  apply String.eqb_neq in Hxu. rewrite Hxu. reflexivity.
Qed.

Lemma merge_ok (st : Store) (m : NodeMatch) (L : string) (nu nc : Node) :
  label_of (NodeType m) = Some L ->
  find_node st L (UnconsolidatedID m) = Some nu ->
  find_node st L (ConsolidatedID m) = Some nc ->
  mergeIntoConsolidatedNode st m = Ok (merge_result st m L nu nc).
Proof.
  intros HL Hu Hc. unfold mergeIntoConsolidatedNode, getNodeEmbeddingAndScore.
  rewrite HL, Hu, Hc. reflexivity.
Qed.

(** One merge step inside [consolidateNodes]: the canonical node gets the
    merge update, every node other than the two is unchanged. *)
Lemma merge_step (st : Store) (m : NodeMatch) (L : string) (nu nc : Node) :
  label_of (NodeType m) = Some L ->
  UnconsolidatedID m <> ConsolidatedID m ->
  find_node st L (UnconsolidatedID m) = Some nu ->
  find_node st L (ConsolidatedID m) = Some nc ->
  consolidate_one st m = merge_result st m L nu nc /\
  find_node (merge_result st m L nu nc) L (ConsolidatedID m) =
    Some (merge_update (merged_embedding nu nc) (NewName m) (NewDescription m) nc) /\
  (forall x, x <> UnconsolidatedID m -> x <> ConsolidatedID m ->
     find_node (merge_result st m L nu nc) L x = find_node st L x).
Proof.
  intros HL Hne Hu Hc. split; [|split].
  - unfold consolidate_one. apply String.eqb_neq in Hne. rewrite Hne.
    rewrite (merge_ok st m L nu nc HL Hu Hc). reflexivity.
  - unfold merge_result. rewrite detach_find by (intros E; apply Hne; symmetry; exact E).
    unfold find_node. rewrite transfer_rels_nodes. fold (find_node (set_node L (ConsolidatedID m)
      (merge_update (merged_embedding nu nc) (NewName m) (NewDescription m)) st) L (ConsolidatedID m)).
    rewrite set_node_find by (intros n; split; reflexivity).
    rewrite Hc. simpl. destruct (find_node_is _ _ _ _ Hc) as [HlL Hid].
    assert (Hnc : node_is L (ConsolidatedID m) nc = true) by (apply node_is_iff; auto).
    rewrite Hnc. reflexivity.
  - intros x Hxu Hxc. unfold merge_result. rewrite detach_find by exact Hxu.
    unfold find_node. rewrite transfer_rels_nodes.
    fold (find_node (set_node L (ConsolidatedID m)
      (merge_update (merged_embedding nu nc) (NewName m) (NewDescription m)) st) L x).
    rewrite set_node_find by (intros n; split; reflexivity).
    destruct (find_node st L x) as [n|] eqn:Ex; [|simpl; symmetry; exact Ex]. simpl.
    destruct (find_node_is _ _ _ _ Ex) as [_ Hid].
    destruct (node_is L (ConsolidatedID m) n) eqn:Hn; [|symmetry; exact Ex].
    apply node_is_iff in Hn as [_ Hn]. congruence.
Qed.

End MergeFacts.

Section ScoreClaims.
Import Graph Spec.
Local Open Scope string_scope.

Lemma merges_score (t L c : string) (HL : label_of t = Some L) :
  forall (ms : list NodeMatch) (st : Store) (n0 : Node) (s : Z),
  find_node st L c = Some n0 -> cscore n0 = Some s ->
  Forall (fun m => ConsolidatedID m = c /\ NodeType m = t) ms ->
  NoDup (map UnconsolidatedID ms) -> ~ In c (map UnconsolidatedID ms) ->
  (forall m, In m ms -> exists nu, find_node st L (UnconsolidatedID m) = Some nu) ->
  exists n', find_node (consolidateNodes st ms) L c = Some n' /\
             cscore n' = Some (s + Z.of_nat (List.length ms))%Z.
Proof.
  induction ms as [|m ms IH]; intros st n0 s Hc Hs Hall Hnd Hnc Hu.
  - exists n0. simpl. rewrite Z.add_0_r. auto.
  - apply Forall_cons_iff in Hall. destruct Hall as [[Hcm Htm] Hall'].
    simpl in Hnd. apply NoDup_cons_iff in Hnd. destruct Hnd as [Hnotin Hnd'].
    destruct (Hu m (or_introl eq_refl)) as [nu Hnu].
    assert (Hne : UnconsolidatedID m <> ConsolidatedID m).
    { intros E. apply Hnc. left. rewrite E. exact Hcm. }
    rewrite <- Hcm in Hc. rewrite <- Htm in HL.
    destruct (merge_step st m L nu n0 HL Hne Hnu Hc) as [Hone [Hcan Hoth]].
    unfold consolidateNodes. simpl. rewrite Hone. fold (consolidateNodes (merge_result st m L nu n0) ms).
    rewrite Hcm in Hcan.
    destruct (IH (merge_result st m L nu n0)
                (merge_update (merged_embedding nu n0) (NewName m) (NewDescription m) n0)
                (1 + s)%Z Hcan) as [n' [Hf Hsc]].
    + simpl. rewrite Hs. reflexivity.
    + exact Hall'.
    + exact Hnd'.
    + intros H. apply Hnc. right. exact H.
    + intros m' Hm'. rewrite Hoth.
      * apply Hu. right. exact Hm'.
      * intros E. apply Hnotin. rewrite <- E. apply in_map. exact Hm'.
      * intros E. apply Hnc. right. rewrite <- Hcm, <- E. apply in_map. exact Hm'.
    + exists n'. split; [exact Hf|]. rewrite Hsc. f_equal. simpl length. lia.
Qed.

(** C8: merging [k] nodes one by one into a canonical node of score 1
    leaves it with score [1 + k]; a promotion sets the score to exactly 1,
    whatever it was. *)
Theorem merges_add_one_promotion_sets_one (st : Store) (t L c : string)
  (ms : list NodeMatch) (n0 : Node) :
  label_of t = Some L -> find_node st L c = Some n0 -> cscore n0 = Some 1%Z ->
  Forall (fun m => ConsolidatedID m = c /\ NodeType m = t) ms ->
  NoDup (map UnconsolidatedID ms) -> ~ In c (map UnconsolidatedID ms) ->
  (forall m, In m ms -> exists nu, find_node st L (UnconsolidatedID m) = Some nu) ->
  (exists n', find_node (consolidateNodes st ms) L c = Some n' /\
              cscore n' = Some (1 + Z.of_nat (List.length ms))%Z) /\
  (forall st' id n, find_node st' L id = Some n ->
     exists n', find_node (consolidateNodes st' [Matcher.promotion t id]) L id = Some n' /\
                cscore n' = Some 1%Z).
Proof.
  intros HL Hc Hs Hall Hnd Hnc Hu. split.
  - exact (merges_score t L c HL ms st n0 1 Hc Hs Hall Hnd Hnc Hu).
  - intros st' id n Hn. unfold consolidateNodes. simpl.
    unfold consolidate_one. simpl. rewrite String.eqb_refl.
    unfold promoteNodeToConsolidated. rewrite HL.
    rewrite set_node_find by (intros x; split; reflexivity).
    rewrite Hn. simpl. destruct (find_node_is _ _ _ _ Hn) as [H1 H2].
    assert (Hi : node_is L id n = true) by (apply node_is_iff; auto).
    rewrite Hi. eexists; split; reflexivity.
Qed.

Lemma merges_add_one_promotion_sets_one_witness :
  exists n', find_node (consolidateNodes seq_store seq_matches) "Stock" "c" = Some n' /\
             cscore n' = Some 3%Z.
Proof.
  destruct (merges_add_one_promotion_sets_one seq_store "stock" "Stock" "c" seq_matches
              (embedded_node "c" "Stock" [2; 0] 1)) as [[n' [H1 H2]] _].
  - reflexivity.
  - reflexivity.
  - reflexivity.
  - repeat constructor.
  - simpl. constructor; [intros [E | []]; discriminate E|]. constructor; [intros []|constructor].
  - simpl. intros [E | [E | []]]; discriminate E.
  - intros m [<- | [<- | []]]; eexists; reflexivity.
  - exists n'. split; [exact H1|]. exact H2.
Defined.

End ScoreClaims.

Section WeightedMean.
Import Graph Spec.
Local Open Scope string_scope.

Lemma veq_refl (a : Emb) : veq a a.
Proof. induction a; constructor; [reflexivity | exact IHa]. Qed.

Lemma veq_trans (a b c : Emb) : veq a b -> veq b c -> veq a c.
Proof.
  intros H. revert c. induction H as [|x y a b Hxy H IH]; intros c Hc.
  - exact Hc.
  - inversion Hc as [|? z ? c' Hyz Hc']; subst.
    constructor; [exact (Qeq_trans _ _ _ Hxy Hyz) | exact (IH _ Hc')].
Qed.

Lemma vadd_compat (a b c : Emb) : veq a b -> veq (vadd a c) (vadd b c).
Proof.
  unfold vadd. intros H. revert c. induction H as [|x y a b Hxy H IH]; intros c.
  - constructor.
  - destruct c as [|z c]; simpl; constructor.
    + rewrite Hxy. reflexivity.
    + apply IH.
Qed.

Lemma vscale_scalar (k k' : Q) (a b : Emb) :
  k == k' -> veq (vscale k a) b -> veq (vscale k' a) b.
Proof.
  unfold vscale. intros Hk H. revert b H. induction a as [|x a IH]; intros b H;
    inversion H as [|? y ? b' Hxy Hb]; subst; constructor.
  - rewrite <- Hk. exact Hxy.
  - apply IH. exact Hb.
Qed.

Lemma vscale_inv (k k' : Q) (a b : Emb) :
  ~ k == 0 -> k == k' -> veq (vscale k a) b -> veq a (vscale (/ k') b).
Proof.
  unfold vscale. intros Hk0 Hk H. revert b H. induction a as [|x a IH]; intros b H;
    inversion H as [|? y ? b' Hxy Hb]; subst; constructor.
  - rewrite <- Hk, <- Hxy. field. exact Hk0.
  - apply IH. exact Hb.
Qed.

Lemma zip_length {A B C : Type} (f : A -> B -> C) (a : list A) (b : list B) :
  List.length a = List.length b -> List.length (zipWith f a b) = List.length a.
Proof.
  revert b. induction a as [|x a IH]; intros [|y b] H; simpl in *; try discriminate; auto.
Qed.

Lemma cwa_length (eu e : Emb) (w1 w2 : Q) :
  List.length eu = List.length e ->
  List.length (calculateWeightedAverageEmbedding eu w1 e w2) = List.length eu.
Proof.
  intros H. unfold calculateWeightedAverageEmbedding. rewrite H, Nat.eqb_refl.
  cbn [negb]. rewrite <- H. apply zip_length. exact H.
Qed.

(** The step of one merge, elementwise. *)
Lemma cwa_formula (eu e : Emb) (w : Q) :
  ~ 1 + w == 0 -> List.length eu = List.length e ->
  veq (vscale (1 + w) (calculateWeightedAverageEmbedding eu 1 e w))
      (vadd (vscale w e) eu).
Proof.
  intros Hw H. unfold calculateWeightedAverageEmbedding. rewrite H, Nat.eqb_refl.
  cbn [negb]. unfold vscale, vadd. revert e H.
  induction eu as [|x eu IH]; intros [|y e] H; simpl in *; try discriminate; constructor.
  - field. exact Hw.
  - apply IH. injection H as H. exact H.
Qed.

Lemma Forall2_impl_in {A B : Type} (P P' : A -> B -> Prop) (l1 : list A) (l2 : list B) :
  Forall2 P l1 l2 -> (forall a b, In a l1 -> P a b -> P' a b) -> Forall2 P' l1 l2.
Proof.
  intros H. induction H as [|a b l1 l2 Hab H IH]; intros Himp; constructor.
  - apply Himp; [left; reflexivity | exact Hab].
  - apply IH. intros a' b' Ha'. apply Himp. right. exact Ha'.
Qed.

Lemma pos_nonzero (w : Z) : (0 <= w)%Z -> ~ 1 + inject_Z w == 0.
Proof. intros Hw. unfold Qeq, Qplus, inject_Z. cbn [Qnum Qden]. rewrite !Z.mul_1_r. lia. Qed.

Lemma merges_embedding (t L c : string) (HL : label_of t = Some L) (d : nat) :
  forall (ms : list NodeMatch) (eus : list Emb) (st : Store) (n0 : Node) (w : Z)
         (e acc : Emb),
  find_node st L c = Some n0 -> cscore n0 = Some w -> (0 <= w)%Z ->
  embedding n0 = Some e -> List.length e = d -> veq (vscale (inject_Z w) e) acc ->
  Forall (fun m => ConsolidatedID m = c /\ NodeType m = t) ms ->
  NoDup (map UnconsolidatedID ms) -> ~ In c (map UnconsolidatedID ms) ->
  Forall2 (fun m eu => exists nu, find_node st L (UnconsolidatedID m) = Some nu /\
                                  embedding nu = Some eu /\ List.length eu = d) ms eus ->
  exists n', find_node (consolidateNodes st ms) L c = Some n' /\
    exists e', embedding n' = Some e' /\
      veq (vscale (inject_Z (w + Z.of_nat (List.length ms))) e') (fold_left vadd eus acc).
Proof.
  induction ms as [|m ms IH];
    intros eus st n0 w e acc Hc Hs Hw He Hd Hacc Hall Hnd Hnc Heus.
  - inversion Heus; subst. exists n0. split; [exact Hc|]. exists e. split; [exact He|].
    simpl. rewrite Z.add_0_r. exact Hacc.
  - inversion Heus as [|? eu ? eus' [nu [Hnu [Heu Hdu]]] Heus']; subst.
    apply Forall_cons_iff in Hall. destruct Hall as [[Hcm Htm] Hall'].
    simpl in Hnd. apply NoDup_cons_iff in Hnd. destruct Hnd as [Hnotin Hnd'].
    assert (Hne : UnconsolidatedID m <> ConsolidatedID m).
    { intros E. apply Hnc. left. rewrite E. exact Hcm. }
    rewrite <- Hcm in Hc. rewrite <- Htm in HL.
    destruct (merge_step st m L nu n0 HL Hne Hnu Hc) as [Hone [Hcan Hoth]].
    rewrite Hcm in Hcan. rewrite Htm in HL.
    assert (Hme : merged_embedding nu n0 =
                  calculateWeightedAverageEmbedding eu 1 e (inject_Z w)).
    { unfold merged_embedding, score0. rewrite Heu, He, Hs. reflexivity. }
    unfold consolidateNodes. simpl. rewrite Hone.
    fold (consolidateNodes (merge_result st m L nu n0) ms).
    destruct (IH eus' (merge_result st m L nu n0)
                (merge_update (merged_embedding nu n0) (NewName m) (NewDescription m) n0)
                (1 + w)%Z (merged_embedding nu n0) (vadd acc eu) Hcan)
      as [n' [Hf [e' [He' Hv]]]].
    + simpl. rewrite Hs. reflexivity.
    + lia.
    + reflexivity.
    + rewrite Hme, cwa_length; [exact Hdu | congruence].
    + apply (veq_trans _ (vadd (vscale (inject_Z w) e) eu)).
      * apply (vscale_scalar (1 + inject_Z w)).
        -- rewrite inject_Z_plus. reflexivity.
        -- rewrite Hme. apply cwa_formula; [apply pos_nonzero; exact Hw | congruence].
      * apply vadd_compat. exact Hacc.
    + exact Hall'.
    + exact Hnd'.
    + intros H. apply Hnc. right. exact H.
    + apply (Forall2_impl_in _ _ _ _ Heus').
      intros m' eu' Hm' [nu' [Hnu' [Heu' Hdu']]]. exists nu'.
      split; [|split; assumption]. rewrite Hoth; [exact Hnu'| |].
      * intros E. apply Hnotin. rewrite <- E. apply in_map. exact Hm'.
      * intros E. apply Hnc. right. rewrite <- Hcm, <- E. apply in_map. exact Hm'.
    + exists n'. split; [exact Hf|]. exists e'. split; [exact He'|].
      rewrite Zpos_P_of_succ_nat.
      replace (w + Z.succ (Z.of_nat (List.length ms)))%Z
        with (1 + w + Z.of_nat (List.length ms))%Z by lia.
      exact Hv.
Qed.

(** C9: one merge stores the elementwise weighted average
    [(E_c * S_c + E_u * 1) / (S_c + 1)]; after [k] sequential merges into a
    canonical node of score [s], its embedding equals (over exact
    arithmetic) the weighted mean of the original [k + 1] embeddings, the
    canonical one weighted by [s] and each absorbed one by 1. *)
Theorem merges_weighted_average (st : Store) (t L c : string) (ms : list NodeMatch)
  (n0 : Node) (ec : Emb) (s : Z) (eus : list Emb) (d : nat) :
  label_of t = Some L -> find_node st L c = Some n0 -> cscore n0 = Some s ->
  (0 < s)%Z -> embedding n0 = Some ec -> List.length ec = d ->
  Forall (fun m => ConsolidatedID m = c /\ NodeType m = t) ms ->
  NoDup (map UnconsolidatedID ms) -> ~ In c (map UnconsolidatedID ms) ->
  Forall2 (fun m eu => exists nu, find_node st L (UnconsolidatedID m) = Some nu /\
                                  embedding nu = Some eu /\ List.length eu = d) ms eus ->
  (forall (st' : Store) (m : NodeMatch) (L' : string) (nu nc : Node) (eu e : Emb),
     label_of (NodeType m) = Some L' -> UnconsolidatedID m <> ConsolidatedID m ->
     find_node st' L' (UnconsolidatedID m) = Some nu ->
     find_node st' L' (ConsolidatedID m) = Some nc ->
     embedding nu = Some eu -> embedding nc = Some e ->
     List.length eu = List.length e -> (0 <= score0 nc)%Z ->
     exists n', find_node (consolidate_one st' m) L' (ConsolidatedID m) = Some n' /\
       exists e', embedding n' = Some e' /\
         veq e' (vscale (/ (inject_Z (score0 nc) + 1))
                   (vadd (vscale (inject_Z (score0 nc)) e) eu))) /\
  (exists n', find_node (consolidateNodes st ms) L c = Some n' /\
     exists e', embedding n' = Some e' /\ veq e' (weighted_mean (inject_Z s) ec eus)).
Proof.
  intros HL Hc Hs Hpos He Hd Hall Hnd Hnc Heus. split.
  - intros st' m L' nu nc eu e HL' Hne Hnu Hnc' Heu Hen Hlen Hsc.
    destruct (merge_step st' m L' nu nc HL' Hne Hnu Hnc') as [Hone [Hcan _]].
    rewrite Hone. eexists; split; [exact Hcan|]. eexists; split; [reflexivity|].
    unfold merged_embedding. rewrite Heu, Hen. simpl convertEmbedding.
    apply (vscale_inv (1 + inject_Z (score0 nc))).
    + apply pos_nonzero. exact Hsc.
    + apply Qplus_comm.
    + apply cwa_formula; [apply pos_nonzero; exact Hsc | exact Hlen].
  - destruct (merges_embedding t L c HL d ms eus st n0 s ec (vscale (inject_Z s) ec)
                Hc Hs ltac:(lia) He Hd (veq_refl _) Hall Hnd Hnc Heus)
      as [n' [Hf [e' [He' Hv]]]].
    exists n'. split; [exact Hf|]. exists e'. split; [exact He'|].
    unfold weighted_mean. apply (vscale_inv (inject_Z (s + Z.of_nat (List.length ms)))).
    + unfold Qeq. simpl. lia.
    + rewrite inject_Z_plus, (Forall2_length Heus). reflexivity.
    + exact Hv.
Qed.

Lemma merges_weighted_average_witness :
  exists n', find_node (consolidateNodes seq_store seq_matches) "Stock" "c" = Some n' /\
    exists e', embedding n' = Some e' /\ veq e' [1; 1].
Proof.
  destruct (merges_weighted_average seq_store "stock" "Stock" "c" seq_matches
              (embedded_node "c" "Stock" [2; 0] 1) [2; 0] 1 [[0; 2]; [1; 1]] 2)
    as [_ [n' [H1 [e' [H2 H3]]]]].
  - reflexivity.
  - reflexivity.
  - reflexivity.
  - lia.
  - reflexivity.
  - reflexivity.
  - repeat constructor.
  - simpl. constructor; [intros [E | []]; discriminate E|]. constructor; [intros []|constructor].
  - simpl. intros [E | [E | []]]; discriminate E.
  - repeat constructor; eexists; (split; [reflexivity | split; reflexivity]).
  - exists n'. split; [exact H1|]. exists e'. split; [exact H2|].
    apply (veq_trans _ _ _ H3). vm_compute. repeat constructor.
Defined.

End WeightedMean.

Section MismatchClaims.
Import Graph Spec.
Local Open Scope string_scope.

Lemma transfer_one_nodes (u c : string) (st : Store) (r : Rel) :
  nodes (transfer_one u c st r) = nodes st.
Proof.
  unfold transfer_one.
  destruct (rfrom r =? u); cbn iota beta;
    match goal with |- context [if ?b then _ else _] => destruct b end; reflexivity.
Qed.

Lemma transfer_one_mono (u c : string) (st : Store) (r x : Rel) :
  In x (rels st) -> In x (rels (transfer_one u c st r)).
Proof.
  intros H. unfold transfer_one.
  destruct (rfrom r =? u); cbn iota beta;
    match goal with |- context [if ?b then _ else _] => destruct b end;
    simpl; try (apply in_or_app; left); exact H.
Qed.

Lemma transfer_fold_mono (u c : string) (l : list Rel) :
  forall st x, In x (rels st) -> In x (rels (fold_left (transfer_one u c) l st)).
Proof.
  induction l as [|r l IH]; intros st x H; simpl; [exact H|].
  apply IH. apply transfer_one_mono. exact H.
Qed.

Lemma transfer_fold_nodes (u c : string) (l : list Rel) :
  forall st, nodes (fold_left (transfer_one u c) l st) = nodes st.
Proof.
  induction l as [|r l IH]; intros st; simpl; [reflexivity|].
  rewrite IH. apply transfer_one_nodes.
Qed.

(** A transferred record leaves a relationship of its type between [c] and
    the other endpoint, in the original direction. *)
Lemma transfer_one_creates (u c : string) (st : Store) (r : Rel) :
  node_exists st c = true ->
  node_exists st (if String.eqb (rfrom r) u then rto r else rfrom r) = true ->
  exists r', In r' (rels (transfer_one u c st r)) /\
    triple r' = (if String.eqb (rfrom r) u then (rtype r, c, rto r)
                 else (rtype r, rfrom r, c)).
Proof.
  intros Hc Ho. unfold transfer_one.
  destruct (rfrom r =? u); cbn iota beta zeta; rewrite Hc, Ho; cbn [andb];
    match goal with |- context [existsb ?p ?l] => destruct (existsb p l) eqn:Ex end;
    cbn [negb].
  - apply existsb_exists in Ex as [r' [Hin Hs]]. apply same_triple_spec in Hs.
    exists r'. split; assumption.
  - exists (mkRel (rtype r) c (rto r) (rconsolidated r) (rscore r) (rprops r)).
    split; [apply in_or_app; right; left; reflexivity | reflexivity].
  - apply existsb_exists in Ex as [r' [Hin Hs]]. apply same_triple_spec in Hs.
    exists r'. split; assumption.
  - exists (mkRel (rtype r) (rfrom r) c (rconsolidated r) (rscore r) (rprops r)).
    split; [apply in_or_app; right; left; reflexivity | reflexivity].
Qed.

Lemma transfer_fold_creates (u c : string) (r : Rel) (l : list Rel) :
  In r l ->
  forall st, node_exists st c = true ->
  node_exists st (if String.eqb (rfrom r) u then rto r else rfrom r) = true ->
  exists r', In r' (rels (fold_left (transfer_one u c) l st)) /\
    triple r' = (if String.eqb (rfrom r) u then (rtype r, c, rto r)
                 else (rtype r, rfrom r, c)).
Proof.
  induction l as [|r0 l IH]; intros Hin st Hc Ho; [destruct Hin|].
  simpl. destruct Hin as [-> | Hin].
  - destruct (transfer_one_creates u c st r Hc Ho) as [r' [Hr' Ht]].
    exists r'. split; [apply transfer_fold_mono; exact Hr' | exact Ht].
  - apply IH; [exact Hin | |].
    + unfold node_exists in *. rewrite transfer_one_nodes. exact Hc.
    + unfold node_exists in *. rewrite transfer_one_nodes. exact Ho.
Qed.

Lemma set_node_exists (L id x : string) (f : Node -> Node) (st : Store) :
  (forall n, nid (f n) = nid n) ->
  node_exists (set_node L id f st) x = node_exists st x.
Proof.
  intros Hf. unfold node_exists, set_node. simpl. induction (nodes st) as [|n ns IH];
    simpl; [reflexivity|].
  rewrite IH. destruct (node_is L id n); [rewrite Hf|]; reflexivity.
Qed.

Lemma find_node_exists (st : Store) (L x : string) (n : Node) :
  find_node st L x = Some n -> node_exists st x = true.
Proof.
  intros H. pose proof (find_node_is _ _ _ _ H) as [_ Hid].
  unfold find_node in H. apply find_some in H as [Hin _].
  unfold node_exists. apply existsb_exists. exists n.
  split; [exact Hin | apply String.eqb_eq; exact Hid].
Qed.

Lemma detach_keeps (u : string) (st : Store) (r : Rel) :
  In r (rels st) -> rfrom r <> u -> rto r <> u -> In r (rels (detach_delete u st)).
Proof.
  intros Hin Hf Ht. unfold detach_delete. simpl. apply filter_In. split; [exact Hin|].
  unfold incident. apply String.eqb_neq in Hf, Ht. rewrite Hf, Ht. reflexivity.
Qed.

(** The relationship phase of one merge, between the [SET] and the delete. *)
Lemma merge_transfers (st : Store) (m : NodeMatch) (L : string) (nu nc : Node) (r : Rel) :
  find_node st L (ConsolidatedID m) = Some nc ->
  UnconsolidatedID m <> ConsolidatedID m ->
  In r (rels st) -> incident (UnconsolidatedID m) r = true ->
  let o := if String.eqb (rfrom r) (UnconsolidatedID m) then rto r else rfrom r in
  o <> UnconsolidatedID m -> node_exists st o = true ->
  exists r', In r' (rels (merge_result st m L nu nc)) /\
    triple r' = (if String.eqb (rfrom r) (UnconsolidatedID m)
                 then (rtype r, ConsolidatedID m, rto r)
                 else (rtype r, rfrom r, ConsolidatedID m)).
Proof.
  intros Hc Hne Hin Hinc o Ho Hoe.
  set (st1 := set_node L (ConsolidatedID m)
                (merge_update (merged_embedding nu nc) (NewName m) (NewDescription m)) st).
  assert (Hx : forall x, node_exists st1 x = node_exists st x)
    by (intros x; apply set_node_exists; reflexivity).
  destruct (transfer_fold_creates (UnconsolidatedID m) (ConsolidatedID m) r
              (filter (incident (UnconsolidatedID m)) (rels st1))
              ltac:(apply filter_In; split; assumption) st1)
    as [r' [Hr' Ht]].
  - rewrite Hx. exact (find_node_exists _ _ _ _ Hc).
  - rewrite Hx. exact Hoe.
  - exists r'. split; [|exact Ht]. unfold merge_result. apply detach_keeps.
    + exact Hr'.
    + unfold triple in Ht. subst o.
      destruct (rfrom r =? UnconsolidatedID m); injection Ht as _ E2 _; rewrite E2;
        [intros E; exact (Hne (eq_sym E)) | exact Ho].
    + unfold triple in Ht. subst o.
      destruct (rfrom r =? UnconsolidatedID m); injection Ht as _ _ E3; rewrite E3;
        [exact Ho | intros E; exact (Hne (eq_sym E))].
Qed.

(** C2 (counterexample): in [mismatch_store] the canonical [c] has a
    2-dimensional embedding and [u] a 1-dimensional one; after the merge [c]
    holds [u]'s embedding [[3]], not its own [[1; 2]]. *)
Lemma mismatch_takes_absorbed_embedding :
  exists n, find_node (consolidateNodes mismatch_store [merge_match "u" "c" "stock"])
              "Stock" "c" = Some n /\
            embedding n = Some [3%Q] /\ embedding n <> Some [1%Q; 2%Q].
Proof.
  exists (mkNode "c" "Stock" "c" "" (Some true) (Some true) (Some 2%Z) (Some [3%Q])).
  split; [vm_compute; reflexivity|]. split; [reflexivity | discriminate].
Qed.

(** C2 (amended): when the two embeddings differ in length the canonical
    node takes the absorbed node's embedding [E_u]; its score still goes up
    by one, the absorbed node is deleted with all its relationships, and
    each of its relationships to another existing node is re-created at the
    canonical node with the same type and direction. *)
Theorem mismatch_merge_uses_absorbed_embedding (st : Store) (m : NodeMatch) (L : string)
  (nu nc : Node) :
  label_of (NodeType m) = Some L ->
  UnconsolidatedID m <> ConsolidatedID m ->
  find_node st L (UnconsolidatedID m) = Some nu ->
  find_node st L (ConsolidatedID m) = Some nc ->
  List.length (convertEmbedding (embedding nu)) <>
    List.length (convertEmbedding (embedding nc)) ->
  (exists n', find_node (consolidate_one st m) L (ConsolidatedID m) = Some n' /\
     embedding n' = Some (convertEmbedding (embedding nu)) /\
     cscore n' = option_map (Z.add 1) (cscore nc)) /\
  node_exists (consolidate_one st m) (UnconsolidatedID m) = false /\
  Forall (fun r => incident (UnconsolidatedID m) r = false) (rels (consolidate_one st m)) /\
  (forall r, In r (rels st) -> rfrom r = UnconsolidatedID m ->
     rto r <> UnconsolidatedID m -> node_exists st (rto r) = true ->
     exists r', In r' (rels (consolidate_one st m)) /\
       triple r' = (rtype r, ConsolidatedID m, rto r)) /\
  (forall r, In r (rels st) -> rto r = UnconsolidatedID m ->
     rfrom r <> UnconsolidatedID m -> node_exists st (rfrom r) = true ->
     exists r', In r' (rels (consolidate_one st m)) /\
       triple r' = (rtype r, rfrom r, ConsolidatedID m)).
Proof.
  intros HL Hne Hu Hc Hlen.
  destruct (merge_step st m L nu nc HL Hne Hu Hc) as [Hone [Hcan _]].
  rewrite Hone. split; [|split; [|split; [|split]]].
  - eexists. split; [exact Hcan|]. split; [|reflexivity]. simpl.
    unfold merged_embedding, calculateWeightedAverageEmbedding.
    apply Nat.eqb_neq in Hlen. rewrite Hlen. reflexivity.
  - unfold merge_result, detach_delete, node_exists. simpl.
    apply Bool.not_true_iff_false. intros H. apply existsb_exists in H as [n [Hn E]].
    apply filter_In in Hn as [_ Hn]. rewrite E in Hn. discriminate Hn.
  - unfold merge_result, detach_delete. simpl. apply Forall_forall.
    intros r Hr. apply filter_In in Hr as [_ Hr]. apply negb_true_iff. exact Hr.
  - intros r Hin Hf Ht Hte.
    assert (Hinc : incident (UnconsolidatedID m) r = true)
      by (unfold incident; rewrite Hf, String.eqb_refl; reflexivity).
    pose proof (merge_transfers st m L nu nc r Hc Hne Hin Hinc) as H.
    cbv zeta in H. rewrite Hf, String.eqb_refl in H. exact (H Ht Hte).
  - intros r Hin Ht Hf Hfe.
    assert (Hinc : incident (UnconsolidatedID m) r = true)
      by (unfold incident; rewrite Ht, String.eqb_refl, orb_true_r; reflexivity).
    pose proof (merge_transfers st m L nu nc r Hc Hne Hin Hinc) as H.
    cbv zeta in H. apply String.eqb_neq in Hf. rewrite Hf in H.
    apply String.eqb_neq in Hf. exact (H Hf Hfe).
Qed.

Lemma mismatch_merge_uses_absorbed_embedding_witness :
  exists r', In r' (rels (consolidate_one mismatch_store (merge_match "u" "c" "stock"))) /\
    triple r' = ("DESCRIBES_STATIC", "c", "s").
Proof.
  destruct (mismatch_merge_uses_absorbed_embedding mismatch_store
              (merge_match "u" "c" "stock") "Stock"
              (embedded_node "u" "Stock" [3] 0) (embedded_node "c" "Stock" [1; 2] 1))
    as [_ [_ [_ [Hout _]]]].
  - reflexivity.
  - discriminate.
  - reflexivity.
  - reflexivity.
  - discriminate.
  - apply (Hout (fresh_rel "DESCRIBES_STATIC" "u" "s" [])).
    + left. reflexivity.
    + reflexivity.
    + discriminate.
    + reflexivity.
Defined.

End MismatchClaims.

Section SynthesisClaims.
Import Graph Orchestrator.
Local Open Scope string_scope.

(** C4 (as stated, refuted): with [GEMINI_API_KEY] unset the synthesis
    step returns an error and the run answers 500 with the store untouched,
    although the merges of [causal_matches] would have changed it. *)
Lemma missing_key_aborts_run :
  ConsolidateGraph Store (fun s => Ok s) (fun _ => Ok Spec.causal_matches)
    "" (fun _ => NetworkError) Spec.causal_store =
    (Spec.causal_store,
     Status500 "Failed to synthesize names: GEMINI_API_KEY environment variable not set") /\
  consolidateNodes Spec.causal_store Spec.causal_matches <> Spec.causal_store.
Proof.
  split; [reflexivity|]. intros E. vm_compute in E. discriminate E.
Qed.

(** C4 (amended): every failure of a synthesis call leaves its match
    unchanged and, once the key is set, the run goes on to merge and answers
    200; a missing [GEMINI_API_KEY] is the one failure that is escalated: the
    run answers 500 before any merge. *)
Theorem synthesis_failures_local_except_missing_key (Fetched : Type)
  (fetch : Store -> result Fetched) (find : Fetched -> result (list NodeMatch))
  (call : NodeMatch -> SynthOutcome) (st : Store) (f : Fetched) (ms : list NodeMatch) :
  fetch st = Ok f -> find f = Ok ms ->
  (forall m, (forall nm nd, call m <> Synthesized nm nd) -> synth_one call m = m) /\
  (forall key, key <> "" ->
     ConsolidateGraph Fetched fetch find key call st =
       (Rewire.cleanupUnconsolidatedNodes
          (Rewire.consolidateRelationships
             (consolidateNodes st (map (synth_one call) ms)) (map (synth_one call) ms)),
        Status200 (List.length ms))) /\
  ConsolidateGraph Fetched fetch find "" call st =
    (st, Status500 "Failed to synthesize names: GEMINI_API_KEY environment variable not set").
Proof.
  intros Hf Hm. split; [|split].
  - intros m Hno. unfold synth_one.
    destruct (UnconsolidatedID m =? ConsolidatedID m); [reflexivity|].
    destruct (call m) eqn:Ec; try reflexivity. exfalso. exact (Hno nm nd eq_refl).
  - intros key Hk. unfold ConsolidateGraph, synthesizeNamesAndDescriptions.
    rewrite Hf, Hm. apply String.eqb_neq in Hk. rewrite Hk. rewrite length_map.
    reflexivity.
  - unfold ConsolidateGraph, synthesizeNamesAndDescriptions. rewrite Hf, Hm. reflexivity.
Qed.

Lemma synthesis_failures_local_except_missing_key_witness :
  ConsolidateGraph Store (fun s => Ok s) (fun _ => Ok Spec.causal_matches)
    "key" (fun _ => NetworkError) Spec.causal_store =
    (Rewire.cleanupUnconsolidatedNodes
       (Rewire.consolidateRelationships
          (consolidateNodes Spec.causal_store Spec.causal_matches) Spec.causal_matches),
     Status200 2).
Proof.
  destruct (synthesis_failures_local_except_missing_key Store (fun s => Ok s)
              (fun _ => Ok Spec.causal_matches) (fun _ => NetworkError)
              Spec.causal_store Spec.causal_store Spec.causal_matches
              eq_refl eq_refl) as [_ [H _]].
  rewrite (H "key"); [reflexivity | discriminate].
Defined.

End SynthesisClaims.

Section BootstrapClaims.
Import Graph Matcher.
Local Open Scope string_scope.

Variable cosine : Emb -> Emb -> result Q.
Variable threshold : Q.

Lemma mem_iff (x : string) (l : list string) :
  existsb (String.eqb x) l = true <-> In x l.
Proof.
  rewrite existsb_exists. split.
  - intros [y [Hy E]]. apply String.eqb_eq in E. subst. exact Hy.
  - intros H. exists x. split; [exact H | apply String.eqb_refl].
Qed.

Lemma mem_false (x : string) (l : list string) :
  ~ In x l -> existsb (String.eqb x) l = false.
Proof.
  intros H. apply Bool.not_true_iff_false. intros E. apply H. apply mem_iff. exact E.
Qed.

(** The partner chosen by the inner loop is the initial one or an
    unprocessed node of the rest of the input. *)
Lemma best_partner_spec (e : Emb) (rest : list Node) (P : list string) :
  forall b0 s0 b s, best_partner cosine threshold e rest P (b0, s0) = (b, s) ->
  b = b0 \/ (In b (map nid rest) /\ is_processed P b = false).
Proof.
  induction rest as [|n2 rest IH]; intros b0 s0 b s H; simpl in H.
  - injection H as <- _. left. reflexivity.
  - destruct (is_processed P (nid n2)) eqn:Ep.
    + destruct (IH _ _ _ _ H) as [-> | [Hin Hp]]; [left; reflexivity|].
      right. split; [right; exact Hin | exact Hp].
    + destruct (cosine e (convertEmbedding (embedding n2))) as [score|msg].
      * destruct (Qle_bool threshold score && negb (Qle_bool score s0)).
        -- destruct (IH _ _ _ _ H) as [-> | [Hin Hp]].
           ++ right. split; [left; reflexivity | exact Ep].
           ++ right. split; [right; exact Hin | exact Hp].
        -- destruct (IH _ _ _ _ H) as [-> | [Hin Hp]]; [left; reflexivity|].
           right. split; [right; exact Hin | exact Hp].
      * destruct (IH _ _ _ _ H) as [-> | [Hin Hp]]; [left; reflexivity|].
        right. split; [right; exact Hin | exact Hp].
Qed.

Lemma bootstrap_count (t : string) :
  forall ns P x, NoDup (map nid ns) ->
  count_occ string_dec (map UnconsolidatedID (bootstrap cosine threshold t ns P)) x =
    if existsb (String.eqb x) (map nid ns) && negb (is_processed P x) then 1%nat else 0%nat.
Proof.
  induction ns as [|n1 rest IH]; intros P x Hnd; [reflexivity|].
  simpl in Hnd. apply NoDup_cons_iff in Hnd. destruct Hnd as [Hn1 Hnd].
  cbn [bootstrap map existsb].
  destruct (is_processed P (nid n1)) eqn:Ep.
  - rewrite IH by exact Hnd. destruct (String.eqb_spec x (nid n1)) as [->|Hx].
    + rewrite (mem_false _ _ Hn1), Ep. reflexivity.
    + reflexivity.
  - destruct (best_partner cosine threshold (convertEmbedding (embedding n1)) rest P
                (nid n1, -1)) as [b sc] eqn:Eb.
    destruct (best_partner_spec _ _ _ _ _ _ _ Eb) as [-> | [Hb Hbp]].
    + rewrite String.eqb_refl. cbn [negb map].
      cbn [count_occ promotion UnconsolidatedID]. rewrite IH by exact Hnd.
      unfold is_processed. cbn [existsb].
      destruct (string_dec (nid n1) x) as [<-|Hx].
      * rewrite String.eqb_refl, (mem_false _ _ Hn1). unfold is_processed in Ep.
        rewrite Ep. reflexivity.
      * apply not_eq_sym, String.eqb_neq in Hx. rewrite Hx. reflexivity.
    + assert (Hbn : b <> nid n1) by (intros E; apply Hn1; rewrite <- E; exact Hb).
      pose proof Hbn as Hbn'. apply String.eqb_neq in Hbn'. rewrite Hbn'. cbn [negb map].
      cbn [count_occ promotion UnconsolidatedID]. rewrite IH by exact Hnd.
      unfold is_processed in *. cbn [existsb].
      destruct (string_dec b x) as [E1|Hx1]; destruct (string_dec (nid n1) x) as [E|Hx2].
      * exfalso. apply Hbn. congruence.
      * subst x. apply String.eqb_neq in Hx2. rewrite (String.eqb_sym b (nid n1)), Hx2.
        rewrite String.eqb_refl, Hbp. apply mem_iff in Hb. rewrite Hb. reflexivity.
      * subst x. rewrite String.eqb_refl, (mem_false _ _ Hn1), Ep. reflexivity.
      * apply not_eq_sym, String.eqb_neq in Hx1, Hx2. rewrite Hx1, Hx2. reflexivity.
Qed.

Lemma bootstrap_shape (t : string) :
  forall ns P m, In m (bootstrap cosine threshold t ns P) ->
  NodeType m = t /\
  ((ConsolidatedID m = UnconsolidatedID m /\ SimilarityScore m = 1) \/
   exists pre post, map nid ns = (pre ++ ConsolidatedID m :: post)%list /\
                    In (UnconsolidatedID m) post).
Proof.
  induction ns as [|n1 rest IH]; intros P m Hm; [destruct Hm|].
  cbn [bootstrap] in Hm.
  assert (Shift : forall P', In m (bootstrap cosine threshold t rest P') ->
            NodeType m = t /\
            ((ConsolidatedID m = UnconsolidatedID m /\ SimilarityScore m = 1) \/
             exists pre post, map nid (n1 :: rest) = (pre ++ ConsolidatedID m :: post)%list /\
                              In (UnconsolidatedID m) post)).
  { intros P' H. destruct (IH P' m H) as [Ht [Hp | [pre [post [Hs Hin]]]]].
    - split; [exact Ht | left; exact Hp].
    - split; [exact Ht|]. right. exists (nid n1 :: pre), post. split; [|exact Hin].
      simpl. rewrite Hs. reflexivity. }
  destruct (is_processed P (nid n1)); [exact (Shift _ Hm)|].
  destruct (best_partner cosine threshold (convertEmbedding (embedding n1)) rest P
              (nid n1, -1)) as [b sc] eqn:Eb.
  destruct (negb (b =? nid n1)) eqn:Ebn.
  - destruct Hm as [<- | [<- | Hm]].
    + split; [reflexivity|]. right. exists [], (map nid rest). split; [reflexivity|].
      simpl. destruct (best_partner_spec _ _ _ _ _ _ _ Eb) as [-> | [Hb _]];
        [rewrite String.eqb_refl in Ebn; discriminate Ebn | exact Hb].
    + split; [reflexivity|]. left. split; reflexivity.
    + exact (Shift _ Hm).
  - destruct Hm as [<- | Hm].
    + split; [reflexivity|]. left. split; reflexivity.
    + exact (Shift _ Hm).
Qed.

(** C10: on a first run for a type (no consolidated node of it), the
    matcher emits exactly one entry per unconsolidated node (as
    UnconsolidatedID) and no other; every entry has the type, and is either
    a promotion (canonical = itself, similarity 1) or a merge into a node
    strictly earlier in the input. *)
Theorem bootstrap_matches_every_node (t : string) (ns : list Node) :
  NoDup (map nid ns) ->
  (forall x, count_occ string_dec
               (map UnconsolidatedID (matches_for_type cosine threshold t ns [])) x =
             if in_dec string_dec x (map nid ns) then 1%nat else 0%nat) /\
  (forall m, In m (matches_for_type cosine threshold t ns []) ->
     NodeType m = t /\
     ((ConsolidatedID m = UnconsolidatedID m /\ SimilarityScore m = 1) \/
      exists pre post, map nid ns = (pre ++ ConsolidatedID m :: post)%list /\
                       In (UnconsolidatedID m) post)).
Proof.
  intros Hnd. unfold matches_for_type. split.
  - intros x. rewrite bootstrap_count by exact Hnd. cbn [is_processed existsb negb].
    rewrite andb_true_r. destruct (in_dec string_dec x (map nid ns)) as [Hin|Hin].
    + apply mem_iff in Hin. rewrite Hin. reflexivity.
    + rewrite (mem_false _ _ Hin). reflexivity.
  - intros m Hm. exact (bootstrap_shape t ns [] m Hm).
Qed.

End BootstrapClaims.

Lemma bootstrap_matches_every_node_witness :
  count_occ string_dec
    (map Graph.UnconsolidatedID
       (Matcher.matches_for_type Spec.dot_similarity Matcher.similarityThreshold
          "stock"%string Spec.boot_nodes [])) "n3"%string = 1%nat.
Proof.
  destruct (bootstrap_matches_every_node Spec.dot_similarity Matcher.similarityThreshold
              "stock"%string Spec.boot_nodes) as [H _].
  - vm_compute. repeat constructor; vm_compute; intuition discriminate.
  - rewrite H. reflexivity.
Defined.

(** * Further properties of the code *)

Section CosineSymmetry.
Import Float.

Lemma SFmul_comm (prec emax : Z) (x y : spec_float) :
  SFmul prec emax x y = SFmul prec emax y x.
Proof.
  destruct x as [sx|sx| |sx mx ex], y as [sy|sy| |sy my ey]; simpl;
    rewrite ?(xorb_comm sx sy); try reflexivity.
  rewrite Pos.mul_comm, Z.add_comm. reflexivity.
Qed.

Lemma cos_loop_swap (a b : list spec_float) :
  forall dot am bm,
  cos_loop b a dot bm am =
    let '(d, x, y) := cos_loop a b dot am bm in (d, y, x).
Proof.
  revert b. induction a as [|x a IH]; intros [|y b] dot am bm; simpl; try reflexivity.
  unfold mul32. rewrite (SFmul_comm _ _ y x). apply IH.
Qed.

(** [cosineSimilarity] is symmetric, bit for bit: every [a[i]*b[i]] is a
    commutative IEEE product and the two magnitudes only trade places. *)
Theorem cosineSimilarity_symmetric (a b : list spec_float) :
  cosineSimilarity a b = cosineSimilarity b a.
Proof.
  unfold cosineSimilarity. rewrite Nat.eqb_sym.
  destruct (Nat.eqb (List.length b) (List.length a)); [|reflexivity]. cbn [negb].
  rewrite (cos_loop_swap b a). destruct (cos_loop b a zero64 zero64 zero64) as [[d x] y].
  rewrite orb_comm. unfold mul64. rewrite (SFmul_comm _ _ (sqrt64 y)). reflexivity.
Qed.

End CosineSymmetry.

Section EmbeddingPipeline.
Import Graph Embedding Spec.
Local Open Scope string_scope.

Lemma update_one_pointwise (st : Store) (p : NodeForEmbedding * option Emb) :
  update_one st p = mkStore (map (fun n => embed_step n p) (nodes st)) (rels st).
Proof.
  destruct p as [q [v|]]; unfold update_one, embed_step; cbn [fst snd].
  - destruct (label_of (NodeType q)); [reflexivity|].
    destruct st; simpl; rewrite map_id; reflexivity.
  - destruct st; simpl; rewrite map_id; reflexivity.
Qed.

Lemma update_fold (ps : list (NodeForEmbedding * option Emb)) : forall st,
  fold_left update_one ps st =
  mkStore (map (fun n => fold_left embed_step ps n) (nodes st)) (rels st).
Proof.
  induction ps as [|p ps IH]; intros st; simpl.
  - destruct st; simpl; rewrite map_id; reflexivity.
  - rewrite IH, update_one_pointwise. simpl. rewrite map_map. reflexivity.
Qed.

Lemma embed_step_same (n : Node) (p : NodeForEmbedding * option Emb) :
  same_but_embedding n (embed_step n p) /\
  (embedded n = Some true -> embedded (embed_step n p) = Some true).
Proof.
  unfold embed_step, same_but_embedding.
  destruct (snd p); [|tauto]. destruct (label_of (NodeType (fst p))); [|tauto].
  destruct (node_is _ _ n); simpl; tauto.
Qed.

Lemma embed_fold_same (ps : list (NodeForEmbedding * option Emb)) : forall n,
  same_but_embedding n (fold_left embed_step ps n) /\
  (embedded n = Some true -> embedded (fold_left embed_step ps n) = Some true).
Proof.
  induction ps as [|p ps IH]; intros n; simpl.
  - unfold same_but_embedding. tauto.
  - destruct (embed_step_same n p) as [H1 H2].
    destruct (IH (embed_step n p)) as [H3 H4].
    unfold same_but_embedding in *. split; [|tauto].
    destruct H1 as (?&?&?&?&?&?), H3 as (?&?&?&?&?&?).
    repeat split; congruence.
Qed.

Lemma embed_fold_applies (ps : list (NodeForEmbedding * option Emb)) (q : NodeForEmbedding)
  (v : Emb) : forall n,
  In (q, Some v) ps -> label_of (NodeType q) = Some (label n) -> ID q = nid n ->
  embedded (fold_left embed_step ps n) = Some true.
Proof.
  induction ps as [|p ps IH]; intros n Hin HL Hid; [destruct Hin|]. simpl.
  destruct Hin as [-> | Hin].
  - apply (proj2 (embed_fold_same ps _)).
    unfold embed_step; simpl. rewrite HL.
    destruct (node_is_iff (label n) (ID q) n) as [_ Hn]. rewrite Hn by auto.
    reflexivity.
  - destruct (embed_step_same n p) as [(Hid' & HL' & _) _].
    apply (IH _ Hin); congruence.
Qed.

Lemma embed_fold_none (ps : list (NodeForEmbedding * option Emb)) : forall n,
  (forall q e, In (q, e) ps -> ID q = nid n -> label_of (NodeType q) = Some (label n) ->
     e = None) ->
  fold_left embed_step ps n = n.
Proof.
  induction ps as [|[q e] ps IH]; intros n H; simpl; [reflexivity|].
  replace (embed_step n (q, e)) with n.
  - apply IH. intros q' e' Hin. apply H. right. exact Hin.
  - unfold embed_step; cbn [fst snd].
    destruct e as [v|]; [|reflexivity].
    destruct (label_of (NodeType q)) as [L|] eqn:HL; [|reflexivity].
    destruct (node_is L _ n) eqn:Hn; [|reflexivity].
    apply node_is_iff in Hn. destruct Hn as [<- Hid].
    assert (Some v = None) as Hc by (apply (H q); [left; reflexivity | symmetry; exact Hid | exact HL]).
    discriminate Hc.
Qed.

Lemma label_of_entity (t L : string) : label_of t = Some L -> In L entity_labels.
Proof.
  unfold label_of, entity_labels.
  destruct (String.eqb t "system"); [intros [= <-]; simpl; tauto|].
  destruct (String.eqb t "stock"); [intros [= <-]; simpl; tauto|].
  destruct (String.eqb t "flow"); [intros [= <-]; simpl; tauto|].
  discriminate.
Qed.

Lemma pending_in (st : Store) (n : Node) :
  In n (nodes st) -> In (label n) entity_labels -> embedded n <> Some true ->
  exists t, label_of t = Some (label n) /\ In (for_embedding t n) (fetchUnconsolidatedNodes st).
Proof.
  intros Hin HL He.
  assert (Hne : forall L, label n = L -> needs_embedding L n = true).
  { intros L <-. unfold needs_embedding. rewrite String.eqb_refl.
    destruct (embedded n) as [[|]|]; simpl; congruence. }
  unfold fetchUnconsolidatedNodes. simpl in HL.
  destruct HL as [HL | [HL | [HL | []]]].
  - exists "system". split; [rewrite <- HL; reflexivity|].
    apply in_or_app. left. apply in_map, filter_In. auto.
  - exists "stock". split; [rewrite <- HL; reflexivity|].
    apply in_or_app. right. apply in_or_app. left. apply in_map, filter_In. auto.
  - exists "flow". split; [rewrite <- HL; reflexivity|].
    apply in_or_app. right. apply in_or_app. right. apply in_map, filter_In. auto.
Qed.

Lemma fetched_pending (st : Store) (q : NodeForEmbedding) :
  In q (fetchUnconsolidatedNodes st) ->
  exists n, In n (nodes st) /\ In (label n) entity_labels /\ embedded n <> Some true.
Proof.
  unfold fetchUnconsolidatedNodes. intros Hq.
  assert (H : forall L, In L entity_labels ->
            forall t, In q (map (for_embedding t) (filter (needs_embedding L) (nodes st))) ->
            exists n, In n (nodes st) /\ In (label n) entity_labels /\ embedded n <> Some true).
  { intros L HL t Hm. apply in_map_iff in Hm. destruct Hm as (n & _ & Hn).
    apply filter_In in Hn. destruct Hn as [Hn Hl]. unfold needs_embedding in Hl.
    apply andb_true_iff in Hl. destruct Hl as [Hl He].
    apply String.eqb_eq in Hl. exists n. repeat split; [exact Hn| rewrite Hl; exact HL|].
    destruct (embedded n) as [[|]|]; discriminate. }
  repeat (apply in_app_or in Hq; destruct Hq as [Hq|Hq]);
    (eapply H; [|exact Hq]); simpl; tauto.
Qed.

Lemma fetch_nil_iff (st : Store) :
  fetchUnconsolidatedNodes st = [] <->
  (forall n, In n (nodes st) -> In (label n) entity_labels -> embedded n = Some true).
Proof.
  split.
  - intros H0 n Hin HL. destruct (embedded n) as [[|]|] eqn:He; [reflexivity| |];
      (destruct (pending_in st n Hin HL) as (t & _ & Ht); [congruence|];
       rewrite H0 in Ht; destruct Ht).
  - intros H. destruct (fetchUnconsolidatedNodes st) as [|q l] eqn:Hf; [reflexivity|].
    destruct (fetched_pending st q) as (n & Hn & HL & He);
      [rewrite Hf; left; reflexivity|].
    exfalso. exact (He (H n Hn HL)).
Qed.

Lemma combine_in_l {A B : Type} (l1 : list A) (l2 : list B) (x : A) :
  In x l1 -> List.length l1 = List.length l2 ->
  exists y, In (x, y) (combine l1 l2) /\ In y l2.
Proof.
  revert l2. induction l1 as [|a l1 IH]; intros [|b l2] Hin Hlen; simpl in *;
    try discriminate; [destruct Hin|].
  destruct Hin as [-> | Hin].
  - exists b. auto.
  - destruct (IH l2 Hin) as (y & H1 & H2); [congruence|]. exists y. auto.
Qed.

Lemma combine_map_r {A B C : Type} (f : B -> C) (l1 : list A) (l2 : list B) :
  combine l1 (map f l2) = map (fun p => (fst p, f (snd p))) (combine l1 l2).
Proof.
  revert l2. induction l1 as [|a l1 IH]; intros [|b l2]; simpl; try reflexivity.
  rewrite IH. reflexivity.
Qed.

Lemma Forall2_map_self {A : Type} (P : A -> A -> Prop) (f : A -> A) (l : list A) :
  (forall x, In x l -> P x (f x)) -> Forall2 P l (map f l).
Proof.
  induction l as [|a l IH]; intros H; simpl; constructor.
  - apply H. left. reflexivity.
  - apply IH. intros x Hx. apply H. right. exact Hx.
Qed.

(** The unfolded run of [processNodeEmbeddingsInBatch] on a non-empty
    batch whose API call returned [raw]. *)
Lemma process_run (key : string) api (st : Store) (q : NodeForEmbedding)
  (l : list NodeForEmbedding) (raw : list (option Emb)) :
  fetchUnconsolidatedNodes st = q :: l -> key <> "" ->
  api (map Text (q :: l)) = Ok (Some raw) ->
  List.length raw = List.length (q :: l) ->
  processNodeEmbeddingsInBatch key api st =
  Ok (mkStore (map (fun n => fold_left embed_step
         (combine (q :: l) (map (fun e => match e with
                                          | Some (x :: v) => Some (x :: v)
                                          | _ => None end) raw)) n) (nodes st)) (rels st)).
Proof.
  intros Hf Hk Hapi Hlen. unfold processNodeEmbeddingsInBatch. rewrite Hf.
  unfold generateEmbeddingsInBatch.
  destruct (String.eqb key "") eqn:Hke; [apply String.eqb_eq in Hke; contradiction|].
  rewrite Hapi. cbv beta iota. unfold updateNodesWithEmbeddings. rewrite length_map.
  replace (Nat.eqb _ _) with true by (symmetry; apply Nat.eqb_eq; symmetry; exact Hlen).
  cbn [negb]. rewrite update_fold. reflexivity.
Qed.

(** [processNodeEmbeddingsInBatch] reads GEMINI_API_KEY only when there is
    work: if every System, Stock and Flow node is already embedded it succeeds
    and changes nothing, whatever the key and without calling the API; if some
    such node is not embedded, an empty key fails the whole call. *)
Theorem embeddings_key_checked_only_when_pending
  (api : list string -> result (option (list (option Emb)))) (key : string) (st : Store) :
  ((forall n, In n (nodes st) -> In (label n) entity_labels -> embedded n = Some true) ->
   processNodeEmbeddingsInBatch key api st = Ok st) /\
  ((exists n, In n (nodes st) /\ In (label n) entity_labels /\ embedded n <> Some true) ->
   processNodeEmbeddingsInBatch "" api st =
   Err "failed to generate embeddings: GEMINI_API_KEY environment variable not set").
Proof.
  split; intros H.
  - apply fetch_nil_iff in H. unfold processNodeEmbeddingsInBatch. rewrite H. reflexivity.
  - destruct H as (n & Hn & HL & He).
    destruct (pending_in st n Hn HL He) as (t & _ & Ht).
    unfold processNodeEmbeddingsInBatch.
    destruct (fetchUnconsolidatedNodes st); [destruct Ht|]. reflexivity.
Qed.

Lemma embeddings_key_checked_only_when_pending_witness :
  processNodeEmbeddingsInBatch "" (batch_api []) embedded_store = Ok embedded_store /\
  processNodeEmbeddingsInBatch "" (batch_api []) pending_store =
  Err "failed to generate embeddings: GEMINI_API_KEY environment variable not set".
Proof.
  split.
  - apply (proj1 (embeddings_key_checked_only_when_pending (batch_api []) "" embedded_store)).
    intros n Hn HL. destruct Hn as [<- | [<- | []]]; [reflexivity|].
    simpl in HL. intuition discriminate.
  - apply (proj2 (embeddings_key_checked_only_when_pending (batch_api []) "" pending_store)).
    exists (fresh "s1" "System"). simpl. split; [tauto|]. split; [tauto|]. discriminate.
Defined.

(** When the API answers with a number of embeddings different from the
    number of fetched nodes, [processNodeEmbeddingsInBatch] fails with the
    count-mismatch error, which gives both counts in decimal, and updates no
    node, not even those the answer covers. *)
Theorem embeddings_count_mismatch_rejects_batch
  (api : list string -> result (option (list (option Emb)))) (key : string) (st : Store)
  (raw : list (option Emb)) :
  key <> "" -> fetchUnconsolidatedNodes st <> [] ->
  api (map Text (fetchUnconsolidatedNodes st)) = Ok (Some raw) ->
  List.length raw <> List.length (fetchUnconsolidatedNodes st) ->
  processNodeEmbeddingsInBatch key api st =
  Err ("mismatch between nodes count (" ++ itoa (List.length (fetchUnconsolidatedNodes st)) ++
       ") and embeddings count (" ++ itoa (List.length raw) ++ ")").
Proof.
  intros Hk Hne Hapi Hlen. unfold processNodeEmbeddingsInBatch.
  destruct (fetchUnconsolidatedNodes st) as [|q l]; [contradiction|].
  unfold generateEmbeddingsInBatch.
  destruct (String.eqb key "") eqn:Hke; [apply String.eqb_eq in Hke; contradiction|].
  rewrite Hapi. cbv beta iota. unfold updateNodesWithEmbeddings. rewrite length_map.
  replace (Nat.eqb _ _) with false; [reflexivity|].
  symmetry. apply Nat.eqb_neq. intros E. apply Hlen. symmetry. exact E.
Qed.

Lemma embeddings_count_mismatch_rejects_batch_witness :
  processNodeEmbeddingsInBatch "k" (batch_api [Some [1]; Some [2]]) pending_store =
  Err "mismatch between nodes count (1) and embeddings count (2)".
Proof.
  apply embeddings_count_mismatch_rejects_batch with (raw := [Some [1]; Some [2]]).
  - discriminate.
  - vm_compute. discriminate.
  - reflexivity.
  - vm_compute. discriminate.
Defined.

(** A successful batch embeds every entity node: when the key is set and the
    API returns one non-empty vector per fetched node, every System, Stock
    and Flow node ends with [embedded = true]; the other nodes and all
    relationships are unchanged, and no node changes its id, label, name,
    description, [consolidated] flag or score. *)
Theorem embedding_run_embeds_every_entity_node
  (api : list string -> result (option (list (option Emb)))) (key : string) (st : Store)
  (raw : list (option Emb)) :
  key <> "" ->
  api (map Text (fetchUnconsolidatedNodes st)) = Ok (Some raw) ->
  List.length raw = List.length (fetchUnconsolidatedNodes st) ->
  Forall (fun e => exists x v, e = Some (x :: v)) raw ->
  exists st', processNodeEmbeddingsInBatch key api st = Ok st' /\ rels st' = rels st /\
    Forall2 (fun n n' => same_but_embedding n n' /\
                         (In (label n) entity_labels -> embedded n' = Some true) /\
                         (~ In (label n) entity_labels -> n' = n))
            (nodes st) (nodes st').
Proof.
  intros Hk Hapi Hlen Hraw.
  destruct (fetchUnconsolidatedNodes st) as [|q l] eqn:Hf.
  - exists st. split; [unfold processNodeEmbeddingsInBatch; rewrite Hf; reflexivity|].
    split; [reflexivity|].
    rewrite <- (map_id (nodes st)) at 2. apply Forall2_map_self. intros n Hn.
    split; [unfold same_but_embedding; tauto|]. split; [|reflexivity].
    intros HL. exact (proj1 (fetch_nil_iff st) Hf n Hn HL).
  - eexists. split; [exact (process_run key api st q l raw Hf Hk Hapi Hlen)|].
    split; [reflexivity|]. cbn [nodes]. apply Forall2_map_self. intros n Hn.
    destruct (embed_fold_same (combine (q :: l) (map (fun e => match e with
        | Some (x :: v) => Some (x :: v) | _ => None end) raw)) n) as [Hs He].
    split; [exact Hs|]. split.
    + intros HL. destruct (embedded n) as [[|]|] eqn:Hen; [apply He; reflexivity| |];
        (destruct (pending_in st n Hn HL) as (t & Ht & Hin); [congruence|];
         rewrite Hf in Hin;
         destruct (combine_in_l (q :: l) (map (fun e : option Emb => match e with
            | Some (x :: v) => Some (x :: v) | _ => None end) raw) _ Hin)
           as (e & Hc & He');
         [rewrite length_map; symmetry; exact Hlen|];
         apply in_map_iff in He'; destruct He' as (e0 & <- & He0);
         destruct (proj1 (Forall_forall _ _) Hraw e0 He0) as (x & v & ->);
         exact (embed_fold_applies _ _ _ n Hc Ht eq_refl)).
    + intros HL. apply embed_fold_none. intros q' e' _ _ HL'.
      exfalso. exact (HL (label_of_entity _ _ HL')).
Qed.

Lemma embedding_run_embeds_every_entity_node_witness :
  exists st', processNodeEmbeddingsInBatch "k" (batch_api [Some [1]]) pending_store = Ok st' /\
    rels st' = rels pending_store /\
    Forall2 (fun n n' => same_but_embedding n n' /\
                         (In (label n) entity_labels -> embedded n' = Some true) /\
                         (~ In (label n) entity_labels -> n' = n))
            (nodes pending_store) (nodes st').
Proof.
  apply embedding_run_embeds_every_entity_node with (raw := [Some [1]]).
  - discriminate.
  - reflexivity.
  - reflexivity.
  - constructor; [exists 1, []; reflexivity | constructor].
Defined.

(** A node the API leaves without a vector stays pending: if every answer
    for the node's id and type is nil or empty, the node comes out of a
    successful [processNodeEmbeddingsInBatch] exactly as it went in, and the
    next run fetches it again. *)
Theorem embedding_skipped_node_stays_pending
  (api : list string -> result (option (list (option Emb)))) (key : string) (st : Store)
  (raw : list (option Emb)) (n : Node) :
  key <> "" ->
  api (map Text (fetchUnconsolidatedNodes st)) = Ok (Some raw) ->
  List.length raw = List.length (fetchUnconsolidatedNodes st) ->
  In n (nodes st) -> In (label n) entity_labels -> embedded n <> Some true ->
  (forall q e, In (q, e) (combine (fetchUnconsolidatedNodes st) raw) ->
     ID q = nid n -> label_of (NodeType q) = Some (label n) ->
     match e with Some (_ :: _) => False | _ => True end) ->
  exists st', processNodeEmbeddingsInBatch key api st = Ok st' /\ In n (nodes st') /\
    exists t, In (for_embedding t n) (fetchUnconsolidatedNodes st').
Proof.
  intros Hk Hapi Hlen Hn HL He Hnone.
  destruct (pending_in st n Hn HL He) as (t0 & _ & Hin0).
  destruct (fetchUnconsolidatedNodes st) as [|q l] eqn:Hf; [destruct Hin0|].
  eexists. split; [exact (process_run key api st q l raw Hf Hk Hapi Hlen)|].
  assert (Hin : In n (nodes (mkStore (map (fun n => fold_left embed_step
         (combine (q :: l) (map (fun e => match e with
                                          | Some (x :: v) => Some (x :: v)
                                          | _ => None end) raw)) n) (nodes st)) (rels st)))).
  { cbn [nodes]. apply in_map_iff. exists n. split; [|exact Hn].
    apply embed_fold_none. intros q' e' Hc Hid HL'. rewrite combine_map_r in Hc.
    apply in_map_iff in Hc. destruct Hc as ([q0 e0] & [= <- <-] & Hc).
    specialize (Hnone q0 e0 Hc Hid HL'). cbn [snd].
    destruct e0 as [[|x v]|]; [reflexivity|destruct Hnone|reflexivity]. }
  split; [exact Hin|].
  destruct (pending_in _ n Hin HL He) as (t & _ & Ht). exists t. exact Ht.
Qed.

Lemma embedding_skipped_node_stays_pending_witness :
  exists st', processNodeEmbeddingsInBatch "k" (batch_api [Some []]) pending_store = Ok st' /\
    In (fresh "s1" "System") (nodes st') /\
    exists t, In (for_embedding t (fresh "s1" "System")) (fetchUnconsolidatedNodes st').
Proof.
  apply embedding_skipped_node_stays_pending with (raw := [Some []]).
  - discriminate.
  - reflexivity.
  - reflexivity.
  - simpl. tauto.
  - simpl. tauto.
  - discriminate.
  - intros q e [E | []]. injection E as <- <-. intros _ _. exact I.
Defined.

End EmbeddingPipeline.

Section FetchForConsolidation.
Import Graph Fetch Spec.
Local Open Scope string_scope.

Lemma lookup_map_append (m : NodeMap) (t k : string) (x : Node) :
  lookup_nodes (map_append m t x) k =
  if String.eqb k t then (lookup_nodes m k ++ [x])%list else lookup_nodes m k.
Proof.
  induction m as [|[k' l] m IH]; simpl.
  - destruct (String.eqb k t); reflexivity.
  - destruct (String.eqb_spec t k') as [<-|Hne]; simpl.
    + destruct (String.eqb k t); reflexivity.
    + rewrite IH. destruct (String.eqb_spec k k') as [->|Hk]; [|reflexivity].
      destruct (String.eqb_spec k' t); [congruence|reflexivity].
Qed.

Lemma fetch_fold_panics (t : string) (l : list Node) (msg : string) :
  fold_left (fetch_step t) l (Panics msg) = Panics msg.
Proof. induction l as [|n l IH]; [reflexivity|exact IH]. Qed.

Lemma fetch_fold_returns (t : string) (l : list Node) : forall u c,
  Forall (fun n => consolidated n <> None) l ->
  exists u' c', fold_left (fetch_step t) l (Returns (u, c)) = Returns (u', c') /\
    forall k,
      lookup_nodes u' k =
        (if String.eqb k t then lookup_nodes u k ++ filter (consolidated_is false) l
         else lookup_nodes u k)%list /\
      lookup_nodes c' k =
        (if String.eqb k t then lookup_nodes c k ++ filter (consolidated_is true) l
         else lookup_nodes c k)%list.
Proof.
  induction l as [|n l IH]; intros u c Hl.
  - exists u, c. split; [reflexivity|]. intros k.
    destruct (String.eqb k t); rewrite ?app_nil_r; auto.
  - apply Forall_cons_iff in Hl. destruct Hl as [Hn Hl]. simpl.
    assert (Hf : forall b, consolidated n = Some b ->
              consolidated_is b n = true /\ consolidated_is (negb b) n = false).
    { intros b Hb. unfold consolidated_is. rewrite Hb. destruct b; auto. }
    destruct (consolidated n) as [[|]|] eqn:Hc; [| |contradiction]; simpl;
      [destruct (Hf true eq_refl) as [-> E0] | destruct (Hf false eq_refl) as [-> E0]];
      simpl in E0; rewrite E0.
    + destruct (IH u (map_append c t n) Hl) as (u' & c' & E & H).
      exists u', c'. split; [exact E|]. intros k. rewrite (proj1 (H k)), (proj2 (H k)).
      rewrite lookup_map_append.
      destruct (String.eqb k t); [|auto]. rewrite <- app_assoc. auto.
    + destruct (IH (map_append u t n) c Hl) as (u' & c' & E & H).
      exists u', c'. split; [exact E|]. intros k. rewrite (proj1 (H k)), (proj2 (H k)).
      rewrite lookup_map_append.
      destruct (String.eqb k t); [|auto]. rewrite <- app_assoc. auto.
Qed.

Lemma fetch_fold_null (t : string) (l : list Node) : forall acc,
  (exists n, In n l /\ consolidated n = None) ->
  exists msg, fold_left (fetch_step t) l acc = Panics msg.
Proof.
  induction l as [|n l IH]; intros acc (x & Hx & Hc); [destruct Hx|]. simpl.
  destruct Hx as [-> | Hx].
  - destruct acc as [[u c]|msg]; simpl.
    + rewrite Hc. eexists. apply fetch_fold_panics.
    + eexists. apply fetch_fold_panics.
  - apply IH. exists x. auto.
Qed.

Lemma fetch_type_panics (t L : string) (st : Store) (msg : string) :
  fetch_type t L st (Panics msg) = Panics msg.
Proof. apply fetch_fold_panics. Qed.

Lemma embedded_with_label_iff (L : string) (n : Node) :
  embedded_with_label L n = true <-> label n = L /\ embedded n = Some true.
Proof.
  unfold embedded_with_label. rewrite andb_true_iff, String.eqb_eq.
  destruct (embedded n) as [[|]|]; split; intros [? ?]; split; congruence.
Qed.

Lemma fetch_type_returns (t L : string) (st : Store) (u c : NodeMap) :
  In L entity_labels ->
  (forall n, In n (nodes st) -> In (label n) entity_labels -> embedded n = Some true ->
     consolidated n <> None) ->
  exists u' c', fetch_type t L st (Returns (u, c)) = Returns (u', c') /\
    forall k,
      lookup_nodes u' k =
        (if String.eqb k t then lookup_nodes u k ++
           filter (consolidated_is false) (filter (embedded_with_label L) (nodes st))
         else lookup_nodes u k)%list /\
      lookup_nodes c' k =
        (if String.eqb k t then lookup_nodes c k ++
           filter (consolidated_is true) (filter (embedded_with_label L) (nodes st))
         else lookup_nodes c k)%list.
Proof.
  intros HL H. apply fetch_fold_returns. apply Forall_forall. intros n Hn.
  apply filter_In in Hn. destruct Hn as [Hn Hw].
  apply embedded_with_label_iff in Hw. destruct Hw as [Hl He].
  apply H; [exact Hn | rewrite Hl; exact HL | exact He].
Qed.

(** The three fetches, unfolded, when no fetched node has a null flag. *)
Lemma fetch_returns (st : Store) :
  (forall n, In n (nodes st) -> In (label n) entity_labels -> embedded n = Some true ->
     consolidated n <> None) ->
  exists unc cons, fetchNodesForConsolidation st = Returns (unc, cons) /\
    (forall t L, label_of t = Some L ->
       lookup_nodes unc t =
         filter (consolidated_is false) (filter (embedded_with_label L) (nodes st)) /\
       lookup_nodes cons t =
         filter (consolidated_is true) (filter (embedded_with_label L) (nodes st))) /\
    (forall k, label_of k = None -> lookup_nodes unc k = [] /\ lookup_nodes cons k = []).
Proof.
  intros H.
  destruct (fetch_type_returns "system" "System" st [] [] ltac:(simpl; tauto) H)
    as (u1 & c1 & E1 & H1).
  assert (E : fetchNodesForConsolidation st =
              fetch_type "flow" "Flow" st (fetch_type "stock" "Stock" st (Returns (u1, c1)))).
  { unfold fetchNodesForConsolidation. rewrite <- E1. reflexivity. }
  rewrite E.
  destruct (fetch_type_returns "stock" "Stock" st u1 c1 ltac:(simpl; tauto) H)
    as (u2 & c2 & E2 & H2).
  rewrite E2.
  destruct (fetch_type_returns "flow" "Flow" st u2 c2 ltac:(simpl; tauto) H)
    as (u3 & c3 & E3 & H3).
  rewrite E3. exists u3, c3. split; [reflexivity|]. split.
  - intros t L Ht. rewrite (proj1 (H3 t)), (proj2 (H3 t)), (proj1 (H2 t)), (proj2 (H2 t)),
      (proj1 (H1 t)), (proj2 (H1 t)).
    unfold label_of in Ht.
    destruct (String.eqb_spec t "system") as [->|Hs];
      [injection Ht as <-; simpl; auto|].
    destruct (String.eqb_spec t "stock") as [->|Hk];
      [injection Ht as <-; simpl; auto|].
    destruct (String.eqb_spec t "flow") as [->|Hf];
      [injection Ht as <-; simpl; auto|discriminate].
  - intros k Hk. rewrite (proj1 (H3 k)), (proj2 (H3 k)), (proj1 (H2 k)), (proj2 (H2 k)),
      (proj1 (H1 k)), (proj2 (H1 k)).
    unfold label_of in Hk.
    destruct (String.eqb k "system"); [discriminate|].
    destruct (String.eqb k "stock"); [discriminate|].
    destruct (String.eqb k "flow"); [discriminate|]. simpl. auto.
Qed.

Lemma fetch_type_null (t L : string) (st : Store) (n : Node) (acc : outcome (NodeMap * NodeMap)) :
  In n (nodes st) -> label n = L -> embedded n = Some true -> consolidated n = None ->
  exists msg, fetch_type t L st acc = Panics msg.
Proof.
  intros Hn HL He Hc. apply fetch_fold_null. exists n. split; [|exact Hc].
  apply filter_In. split; [exact Hn|]. apply embedded_with_label_iff. auto.
Qed.

Lemma in_entity_labels (L : string) :
  In L entity_labels <-> existsb (String.eqb L) entity_labels = true.
Proof.
  rewrite existsb_exists. split.
  - intros H. exists L. split; [exact H|]. apply String.eqb_refl.
  - intros (x & Hx & E). apply String.eqb_eq in E. subst. exact Hx.
Qed.

Lemma reset_node_fields (n : Node) :
  label (Rewire.reset_node n) = label n /\ embedded (Rewire.reset_node n) = embedded n.
Proof. unfold Rewire.reset_node. destruct (_ && _); auto. Qed.

Lemma reset_node_flag (n : Node) :
  In (label n) entity_labels -> embedded n = Some true ->
  consolidated (Rewire.reset_node n) = Some false.
Proof.
  intros HL He. unfold Rewire.reset_node. apply in_entity_labels in HL.
  unfold Rewire.reset_node_labels. unfold entity_labels in HL. rewrite HL, He. reflexivity.
Qed.

Lemma filter_ewl_reset (L : string) (l : list Node) :
  filter (embedded_with_label L) (map Rewire.reset_node l) =
  map Rewire.reset_node (filter (embedded_with_label L) l).
Proof.
  induction l as [|n l IH]; [reflexivity|]. simpl.
  replace (embedded_with_label L (Rewire.reset_node n)) with (embedded_with_label L n).
  - destruct (embedded_with_label L n); simpl; rewrite IH; reflexivity.
  - unfold embedded_with_label. destruct (reset_node_fields n) as [-> ->]. reflexivity.
Qed.

Lemma filter_all_false (l : list Node) :
  (forall x, In x l -> consolidated x = Some false) ->
  filter (consolidated_is false) l = l /\ filter (consolidated_is true) l = [].
Proof.
  induction l as [|x l IH]; intros H; [auto|]. simpl.
  assert (Hx : consolidated x = Some false) by (apply H; left; reflexivity).
  replace (consolidated_is false x) with true by (unfold consolidated_is; rewrite Hx; reflexivity).
  replace (consolidated_is true x) with false by (unfold consolidated_is; rewrite Hx; reflexivity).
  destruct IH as [-> ->]; [intros y Hy; apply H; right; exact Hy|]. auto.
Qed.

(** [fetchNodesForConsolidation] sorts the embedded System, Stock and Flow
    nodes by their [consolidated] flag: when none of them has a null flag it
    returns, and under the key "system", "stock" or "flow" the first map
    holds exactly the embedded nodes of that label with [consolidated =
    false], the second those with [consolidated = true], in store order;
    any other key holds nothing. *)
Theorem fetch_partitions_embedded_nodes (st : Store) :
  (forall n, In n (nodes st) -> In (label n) entity_labels -> embedded n = Some true ->
     consolidated n <> None) ->
  exists unc cons, fetchNodesForConsolidation st = Returns (unc, cons) /\
    (forall t L, label_of t = Some L ->
       lookup_nodes unc t =
         filter (consolidated_is false) (filter (embedded_with_label L) (nodes st)) /\
       lookup_nodes cons t =
         filter (consolidated_is true) (filter (embedded_with_label L) (nodes st))) /\
    (forall k, label_of k = None -> lookup_nodes unc k = [] /\ lookup_nodes cons k = []).
Proof. exact (fetch_returns st). Qed.

Lemma fetch_partitions_embedded_nodes_witness :
  exists unc cons, fetchNodesForConsolidation seq_store = Returns (unc, cons) /\
    (forall t L, label_of t = Some L ->
       lookup_nodes unc t =
         filter (consolidated_is false) (filter (embedded_with_label L) (nodes seq_store)) /\
       lookup_nodes cons t =
         filter (consolidated_is true) (filter (embedded_with_label L) (nodes seq_store))) /\
    (forall k, label_of k = None -> lookup_nodes unc k = [] /\ lookup_nodes cons k = []).
Proof.
  apply fetch_partitions_embedded_nodes.
  intros n Hn _ _. simpl in Hn. repeat (destruct Hn as [<- | Hn]; [discriminate|]).
  destruct Hn.
Defined.

(** [fetchNodesForConsolidation] panics (the [.(bool)] assertion on a null
    property) exactly when some embedded System, Stock or Flow node has no
    [consolidated] property. *)
Theorem fetch_panics_iff_null_flag (st : Store) :
  (exists msg, fetchNodesForConsolidation st = Panics msg) <->
  (exists n, In n (nodes st) /\ In (label n) entity_labels /\ embedded n = Some true /\
             consolidated n = None).
Proof.
  split.
  - intros [msg Hm].
    set (p := fun n => existsb (String.eqb (label n)) entity_labels &&
                match embedded n with Some true => true | _ => false end &&
                match consolidated n with None => true | _ => false end).
    destruct (existsb p (nodes st)) eqn:E.
    + apply existsb_exists in E. destruct E as (n & Hn & E).
      apply andb_true_iff in E. destruct E as [E Hc]. apply andb_true_iff in E.
      destruct E as [HL He]. apply in_entity_labels in HL.
      exists n. split; [exact Hn|]. split; [exact HL|].
      destruct (embedded n) as [[|]|]; [|discriminate|discriminate].
      destruct (consolidated n); [discriminate|]. auto.
    + destruct (fetch_returns st) as (u & c & Hr & _).
      * intros n Hn HL He Hc.
        assert (Hp : p n = true).
        { unfold p. apply in_entity_labels in HL. rewrite HL, He, Hc. reflexivity. }
        assert (Ht : existsb p (nodes st) = true) by (apply existsb_exists; eauto).
        congruence.
      * rewrite Hr in Hm. discriminate.
  - intros (n & Hn & HL & He & Hc). unfold fetchNodesForConsolidation.
    simpl in HL. destruct HL as [HL | [HL | [HL | []]]].
    + match goal with |- context [fetch_type "system" "System" st ?a] =>
        destruct (fetch_type_null "system" "System" st n a Hn (eq_sym HL) He Hc) as [m Hm];
        rewrite Hm end.
      exists m. rewrite !fetch_type_panics. reflexivity.
    + match goal with |- context [fetch_type "stock" "Stock" st ?a] =>
        destruct (fetch_type_null "stock" "Stock" st n a Hn (eq_sym HL) He Hc) as [m Hm];
        rewrite Hm end.
      exists m. rewrite !fetch_type_panics. reflexivity.
    + match goal with |- context [fetch_type "flow" "Flow" st ?a] =>
        destruct (fetch_type_null "flow" "Flow" st n a Hn (eq_sym HL) He Hc) as [m Hm];
        rewrite Hm end.
      exists m. reflexivity.
Qed.

(** After [ResetConsolidation], [fetchNodesForConsolidation] cannot panic and
    finds no consolidated node of any type, so every type is matched by the
    first-run branch; its unconsolidated nodes of each type are all the
    embedded nodes of that label, reset, in store order. *)
Theorem reset_then_fetch_bootstraps (st : Store) :
  exists unc cons,
    fetchNodesForConsolidation (Rewire.ResetConsolidation st) = Returns (unc, cons) /\
    (forall k, lookup_nodes cons k = []) /\
    (forall t L, label_of t = Some L ->
       lookup_nodes unc t =
         map Rewire.reset_node (filter (embedded_with_label L) (nodes st))).
Proof.
  assert (Hflag : forall L, In L entity_labels -> forall x,
            In x (map Rewire.reset_node (filter (embedded_with_label L) (nodes st))) ->
            consolidated x = Some false).
  { intros L HL x Hx. apply in_map_iff in Hx. destruct Hx as (n & <- & Hn).
    apply filter_In in Hn. destruct Hn as [_ Hw].
    apply embedded_with_label_iff in Hw. destruct Hw as [Hl He].
    apply reset_node_flag; [rewrite Hl; exact HL | exact He]. }
  destruct (fetch_returns (Rewire.ResetConsolidation st)) as (u & c & Hr & Ht & Hk).
  - intros x Hx HL He. cbn [Rewire.ResetConsolidation nodes] in Hx.
    apply in_map_iff in Hx. destruct Hx as (n & <- & Hn).
    destruct (reset_node_fields n) as [El Ee]. rewrite El in HL. rewrite Ee in He.
    rewrite (reset_node_flag n HL He). discriminate.
  - exists u, c. split; [exact Hr|].
    cbn [Rewire.ResetConsolidation nodes] in Ht. split.
    + intros k. destruct (label_of k) as [L|] eqn:HL; [|exact (proj2 (Hk k HL))].
      rewrite (proj2 (Ht k L HL)), filter_ewl_reset.
      exact (proj2 (filter_all_false _ (Hflag L (label_of_entity k L HL)))).
    + intros t L HL. rewrite (proj1 (Ht t L HL)), filter_ewl_reset.
      exact (proj1 (filter_all_false _ (Hflag L (label_of_entity t L HL)))).
Qed.

End FetchForConsolidation.

Section Cleanup.
Import Graph Rewire Orchestrator Spec.
Local Open Scope string_scope.

Lemma filter_filter_and {A : Type} (p q : A -> bool) (l : list A) :
  filter p (filter q l) = filter (fun x => q x && p x) l.
Proof.
  induction l as [|x l IH]; [reflexivity|]. simpl.
  destruct (q x); simpl; [destruct (p x); simpl|]; rewrite ?IH; reflexivity.
Qed.

Lemma filter_all_true {A : Type} (p : A -> bool) (l : list A) :
  (forall x, In x l -> p x = true) -> filter p l = l.
Proof.
  induction l as [|x l IH]; intros H; [reflexivity|]. simpl.
  rewrite (H x (or_introl eq_refl)), IH; [reflexivity|].
  intros y Hy. apply H. right. exact Hy.
Qed.

(** Deleting the nodes of [D] one by one, with their relationships. *)
Lemma detach_fold (D : list Node) : forall st,
  fold_left (fun s n => detach_delete (nid n) s) D st =
  mkStore (filter (fun n => forallb (fun d => negb (String.eqb (nid n) (nid d))) D) (nodes st))
          (filter (fun r => forallb (fun d => negb (incident (nid d) r)) D) (rels st)).
Proof.
  induction D as [|d D IH]; intros st; simpl.
  - rewrite !filter_all_true by reflexivity. destruct st; reflexivity.
  - rewrite IH. unfold detach_delete. simpl. rewrite !filter_filter_and. reflexivity.
Qed.

Lemma NoDup_map_inj {A B : Type} (f : A -> B) (l : list A) (x y : A) :
  NoDup (map f l) -> In x l -> In y l -> f x = f y -> x = y.
Proof.
  induction l as [|a l IH]; intros Hd Hx Hy E; [destruct Hx|].
  simpl in Hd. apply NoDup_cons_iff in Hd. destruct Hd as [Ha Hd].
  destruct Hx as [<- | Hx], Hy as [<- | Hy]; auto.
  - exfalso. apply Ha. rewrite E. apply in_map. exact Hy.
  - exfalso. apply Ha. rewrite <- E. apply in_map. exact Hx.
Qed.

Lemma doomed_iff (n : Node) :
  match consolidated n with Some false => true | _ => false end = consolidated_is false n.
Proof. unfold consolidated_is. destruct (consolidated n) as [[|]|]; reflexivity. Qed.

Lemma cleanup_kept (st : Store) (n : Node) :
  In n (nodes (cleanupUnconsolidatedNodes st)) ->
  In n (nodes st) /\ consolidated n <> Some false.
Proof.
  unfold cleanupUnconsolidatedNodes. rewrite detach_fold. cbn [nodes].
  intros Hn. apply filter_In in Hn. destruct Hn as [Hn Hk]. split; [exact Hn|].
  intros Hc. rewrite forallb_forall in Hk.
  assert (Hd : In n (filter (fun n => match consolidated n with
                                      | Some false => true | _ => false end) (nodes st)))
    by (apply filter_In; rewrite Hc; auto).
  specialize (Hk n Hd). rewrite String.eqb_refl in Hk. discriminate.
Qed.

(** [cleanupUnconsolidatedNodes] deletes exactly the nodes with
    [consolidated = false] and the relationships touching them: with node
    ids unique, the nodes left are those whose flag is not [false] (true or
    null), and a relationship is kept exactly when neither endpoint is the
    id of a deleted node. *)
Theorem cleanup_deletes_exactly_unconsolidated (st : Store) :
  NoDup (map nid (nodes st)) ->
  nodes (cleanupUnconsolidatedNodes st) =
    filter (fun n => negb (consolidated_is false n)) (nodes st) /\
  rels (cleanupUnconsolidatedNodes st) =
    filter (fun r => negb (existsb (fun d => incident (nid d) r)
                                   (filter (consolidated_is false) (nodes st))))
           (rels st).
Proof.
  intros Hd. unfold cleanupUnconsolidatedNodes. rewrite detach_fold. cbn [nodes rels].
  rewrite (filter_ext (fun n => match consolidated n with
                                | Some false => true | _ => false end)
                      (consolidated_is false) doomed_iff).
  split.
  - apply filter_ext_in. intros n Hn.
    destruct (consolidated_is false n) eqn:Hc; simpl.
    + apply not_true_is_false. rewrite forallb_forall. intros H.
      specialize (H n (proj2 (filter_In _ _ _) (conj Hn Hc))).
      rewrite String.eqb_refl in H. discriminate.
    + apply forallb_forall. intros d Hdf. apply filter_In in Hdf. destruct Hdf as [Hdn Hdc].
      destruct (String.eqb_spec (nid n) (nid d)) as [E|]; [|reflexivity].
      rewrite (NoDup_map_inj nid (nodes st) n d Hd Hn Hdn E) in Hc. congruence.
  - apply filter_ext. intros r.
    destruct (existsb _ _) eqn:E; simpl.
    + apply existsb_exists in E. destruct E as (d & Hd' & Hi).
      apply not_true_is_false. rewrite forallb_forall. intros H.
      specialize (H d Hd'). rewrite Hi in H. discriminate.
    + apply forallb_forall. intros d Hd'.
      destruct (incident (nid d) r) eqn:Hi; [|reflexivity].
      assert (existsb (fun d => incident (nid d) r)
                (filter (consolidated_is false) (nodes st)) = true)
        by (apply existsb_exists; eauto). congruence.
Qed.

Lemma cleanup_deletes_exactly_unconsolidated_witness :
  map nid (nodes (cleanupUnconsolidatedNodes cleanup_store)) = ["c"; "n"] /\
  (nodes (cleanupUnconsolidatedNodes cleanup_store) =
    filter (fun n => negb (consolidated_is false n)) (nodes cleanup_store) /\
  rels (cleanupUnconsolidatedNodes cleanup_store) =
    filter (fun r => negb (existsb (fun d => incident (nid d) r)
                                   (filter (consolidated_is false) (nodes cleanup_store))))
           (rels cleanup_store)).
Proof.
  split; [reflexivity|].
  apply cleanup_deletes_exactly_unconsolidated. vm_compute.
  repeat constructor; simpl; intuition discriminate.
Defined.

(** A [ConsolidateGraph] call that answers 200 leaves no node with
    [consolidated = false] in the graph, whatever the fetch, the matching
    and the synthesis did. *)
Theorem successful_run_leaves_no_unconsolidated_node (Fetched : Type)
  (fetch : Store -> result Fetched) (find : Fetched -> result (list NodeMatch))
  (key : string) (call : NodeMatch -> SynthOutcome) (st : Store) (k : nat) :
  snd (ConsolidateGraph Fetched fetch find key call st) = Status200 k ->
  forall n, In n (nodes (fst (ConsolidateGraph Fetched fetch find key call st))) ->
    consolidated n <> Some false.
Proof.
  unfold ConsolidateGraph.
  destruct (fetch st) as [f|e]; [|discriminate].
  destruct (find f) as [ms|e]; [|discriminate].
  destruct (synthesizeNamesAndDescriptions key call ms) as [ms'|e]; [|discriminate].
  intros _ n Hn. exact (proj2 (cleanup_kept _ n Hn)).
Qed.

Lemma successful_run_leaves_no_unconsolidated_node_witness :
  map (fun n => (nid n, consolidated n))
      (nodes (fst (ConsolidateGraph Store (fun s => Ok s) (fun _ => Ok run_matches)
                     "key" (fun _ => NetworkError) run_store))) =
    [("x", Some true); ("n", None)] /\
  Forall (fun n => consolidated n <> Some false)
    (nodes (fst (ConsolidateGraph Store (fun s => Ok s) (fun _ => Ok run_matches)
                   "key" (fun _ => NetworkError) run_store))).
Proof.
  split; [reflexivity|].
  apply Forall_forall.
  apply (successful_run_leaves_no_unconsolidated_node Store (fun s => Ok s)
           (fun _ => Ok run_matches) "key" (fun _ => NetworkError) run_store 1).
  reflexivity.
Defined.

End Cleanup.

Section RelationshipPhase.
Import Graph Rewire Spec.
Local Open Scope string_scope.

Lemma dedup_in (x : string) (l : list string) : In x l -> In x (dedup l).
Proof.
  induction l as [|y l IH]; intros H; [destruct H|]. simpl.
  destruct (String.eqb_spec x y) as [->|Hne]; [left; reflexivity|]. right.
  apply filter_In. split.
  - apply IH. destruct H as [->|H]; [congruence|exact H].
  - apply negb_true_iff, String.eqb_neq. exact Hne.
Qed.

(** Every relationship not flagged [consolidated = true] is fetched. *)
Lemma fetch_rels_complete (st : Store) (r : Rel) :
  In r (rels st) -> unconsolidated_rel r = true ->
  In (mkRelRec (rtype r) (rfrom r) (rto r)) (fetchUnconsolidatedRelationships st).
Proof.
  intros Hr Hu. unfold fetchUnconsolidatedRelationships. apply in_flat_map.
  exists (rtype r). split.
  - apply dedup_in, in_map, filter_In. auto.
  - apply in_map_iff. exists r. split; [reflexivity|].
    apply filter_In. rewrite String.eqb_refl. split; [|reflexivity].
    apply filter_In. auto.
Qed.

Lemma process_nodes (mp : list (string * string)) (st : Store) (q : RelRec) :
  nodes (processRelationshipConsolidation mp st q) = nodes st.
Proof.
  unfold processRelationshipConsolidation.
  destruct (resolve mp (FromID q)) as [cf bf], (resolve mp (ToID q)) as [ct bt].
  destruct (negb bf && negb bt); [reflexivity|].
  destruct (_ || _); [|apply merge_rel_nodes]. simpl. apply merge_rel_nodes.
Qed.

Lemma unflagged_not_flagged (r : Rel) :
  unconsolidated_rel r = true -> rconsolidated r <> Some true.
Proof. unfold unconsolidated_rel. destruct (rconsolidated r) as [[|]|]; congruence. Qed.

Lemma merge_rel_unflagged (t f to : string) (st : Store) (r : Rel) :
  In r (rels (merge_rel t f to st)) -> unconsolidated_rel r = true ->
  In r (rels st) /\
  (node_exists st f && node_exists st to = true -> triple r <> (t, f, to)).
Proof.
  intros Hr Hu. unfold merge_rel in Hr.
  destruct (node_exists st f && node_exists st to) eqn:He; [|split; [exact Hr|discriminate]].
  destruct (existsb (same_triple t f to) (rels st)) eqn:Hx; cbn [rels] in Hr.
  - apply in_map_iff in Hr. destruct Hr as (r0 & Hg & Hr0).
    destruct (same_triple t f to r0) eqn:Hs.
    + subst r. exfalso. apply (unflagged_not_flagged _ Hu). reflexivity.
    + subst r0. split; [exact Hr0|]. intros _ E. apply same_triple_spec in E. congruence.
  - apply in_app_or in Hr. destruct Hr as [Hr | [<- | []]].
    + split; [exact Hr|]. intros _ E. apply same_triple_spec in E.
      assert (existsb (same_triple t f to) (rels st) = true)
        by (apply existsb_exists; eauto). congruence.
    + exfalso. apply (unflagged_not_flagged _ Hu). reflexivity.
Qed.

Lemma process_unflagged (mp : list (string * string)) (st : Store) (q : RelRec) (r : Rel) :
  (forall r0, In r0 (rels st) -> unconsolidated_rel r0 = true ->
     node_exists st (rfrom r0) = true /\ node_exists st (rto r0) = true) ->
  In r (rels (processRelationshipConsolidation mp st q)) -> unconsolidated_rel r = true ->
  In r (rels st) /\ triple r <> (RelationType q, FromID q, ToID q).
Proof.
  intros Hex Hr Hu. unfold processRelationshipConsolidation in Hr.
  destruct (resolve mp (FromID q)) as [cf bf], (resolve mp (ToID q)) as [ct bt].
  destruct (negb bf && negb bt).
  - cbn [rels] in Hr. apply in_map_iff in Hr. destruct Hr as (r0 & Hg & Hr0).
    destruct (same_triple (RelationType q) (FromID q) (ToID q) r0) eqn:Hs.
    + subst r. exfalso. apply (unflagged_not_flagged _ Hu). reflexivity.
    + subst r0. split; [exact Hr0|]. intros E. apply same_triple_spec in E. congruence.
  - destruct (negb (String.eqb cf (FromID q)) || negb (String.eqb ct (ToID q))) eqn:Hc.
    + unfold delete_rel in Hr. cbn [rels] in Hr. apply filter_In in Hr.
      destruct Hr as [Hr Hn]. split; [exact (proj1 (merge_rel_unflagged _ _ _ _ _ Hr Hu))|].
      intros E. apply same_triple_spec in E. rewrite E in Hn. discriminate.
    + apply orb_false_iff in Hc. destruct Hc as [Hc1 Hc2].
      apply negb_false_iff, String.eqb_eq in Hc1, Hc2. subst cf ct.
      destruct (merge_rel_unflagged _ _ _ _ _ Hr Hu) as [Hr0 Hne]. split; [exact Hr0|].
      destruct (node_exists st (FromID q) && node_exists st (ToID q)) eqn:He;
        [exact (Hne eq_refl)|].
      intros E. unfold triple in E. injection E as _ Ef Et.
      destruct (Hex r Hr0 Hu) as [H1 H2]. rewrite Ef in H1. rewrite Et in H2.
      rewrite H1, H2 in He. discriminate.
Qed.

Lemma node_exists_nodes (st st' : Store) (id : string) :
  nodes st' = nodes st -> node_exists st' id = node_exists st id.
Proof. unfold node_exists. intros ->. reflexivity. Qed.

Lemma rel_phase_fold (mp : list (string * string)) (L : list RelRec) : forall st,
  (forall r, In r (rels st) -> unconsolidated_rel r = true ->
     node_exists st (rfrom r) = true /\ node_exists st (rto r) = true /\
     In (mkRelRec (rtype r) (rfrom r) (rto r)) L) ->
  nodes (fold_left (processRelationshipConsolidation mp) L st) = nodes st /\
  (forall r, In r (rels (fold_left (processRelationshipConsolidation mp) L st)) ->
     unconsolidated_rel r = false).
Proof.
  induction L as [|q L IH]; intros st Hinv; simpl.
  - split; [reflexivity|]. intros r Hr.
    destruct (unconsolidated_rel r) eqn:Hu; [|reflexivity].
    destruct (Hinv r Hr Hu) as (_ & _ & []).
  - assert (Hn := process_nodes mp st q).
    destruct (IH (processRelationshipConsolidation mp st q)) as [IH1 IH2].
    + intros r Hr Hu.
      destruct (process_unflagged mp st q r) as [Hr0 Hne]; [| exact Hr | exact Hu |].
      { intros r0 H0 H0u. destruct (Hinv r0 H0 H0u) as (? & ? & _). auto. }
      destruct (Hinv r Hr0 Hu) as (H1 & H2 & [Eq | Hin]).
      * exfalso. apply Hne. rewrite Eq. reflexivity.
      * rewrite !(node_exists_nodes _ _ _ Hn). auto.
    + split; [rewrite IH1; exact Hn | exact IH2].
Qed.

(** The relationship phase of a run never adds, removes or changes a node,
    and when every relationship runs between existing nodes it leaves every
    relationship flagged [consolidated = true]. *)
Theorem relationship_phase_flags_every_relationship (st : Store) (ms : list NodeMatch) :
  (forall r, In r (rels st) -> node_exists st (rfrom r) = true /\ node_exists st (rto r) = true) ->
  nodes (consolidateRelationships st ms) = nodes st /\
  forall r, In r (rels (consolidateRelationships st ms)) -> rconsolidated r = Some true.
Proof.
  intros Hex. unfold consolidateRelationships.
  destruct (rel_phase_fold (nodeMapping ms) (fetchUnconsolidatedRelationships st) st)
    as [H1 H2].
  - intros r Hr Hu. destruct (Hex r Hr) as [Ha Hb].
    split; [exact Ha|]. split; [exact Hb|]. apply fetch_rels_complete; assumption.
  - split; [exact H1|]. intros r Hr. specialize (H2 r Hr).
    unfold unconsolidated_rel in H2. destruct (rconsolidated r) as [[|]|]; congruence.
Qed.

Lemma relationship_phase_flags_every_relationship_witness :
  nodes (consolidateRelationships causal_store causal_matches) = nodes causal_store /\
  forall r, In r (rels (consolidateRelationships causal_store causal_matches)) ->
    rconsolidated r = Some true.
Proof.
  apply relationship_phase_flags_every_relationship.
  intros r [<- | [<- | []]]; split; reflexivity.
Defined.

End RelationshipPhase.

Section NodePhase.
Import Graph Spec.
Local Open Scope string_scope.

Lemma set_node_absent (L id : string) (f : Node -> Node) (st : Store) :
  find_node st L id = None -> set_node L id f st = st.
Proof.
  unfold find_node, set_node. intros H.
  rewrite map_ext_in with (g := fun n => n).
  - rewrite map_id. destruct st; reflexivity.
  - intros n Hn. rewrite (find_none _ _ H n Hn). reflexivity.
Qed.

(** [consolidateNodes] skips a match it cannot carry out: when the match's
    node type is not "system", "stock" or "flow", or one of its two nodes is
    not in the graph under that type, [consolidate_one] leaves the whole
    graph as it is (a promotion matches no node; a merge fails and is
    logged). *)
Theorem consolidate_one_skips_unresolvable (st : Store) (m : NodeMatch) :
  (label_of (NodeType m) = None \/
   exists L, label_of (NodeType m) = Some L /\
     (find_node st L (UnconsolidatedID m) = None \/
      find_node st L (ConsolidatedID m) = None)) ->
  consolidate_one st m = st.
Proof.
  intros H. unfold consolidate_one.
  destruct (String.eqb_spec (UnconsolidatedID m) (ConsolidatedID m)) as [E|Hne].
  - unfold promoteNodeToConsolidated.
    destruct H as [-> | (L & -> & Hf)]; [reflexivity|].
    rewrite set_node_absent; [reflexivity|]. rewrite <- E in Hf. tauto.
  - unfold mergeIntoConsolidatedNode, getNodeEmbeddingAndScore.
    destruct H as [-> | (L & -> & [Hf | Hf])]; [reflexivity| rewrite Hf; reflexivity|].
    rewrite Hf. destruct (find_node st L (UnconsolidatedID m)); reflexivity.
Qed.

Lemma consolidate_one_skips_unresolvable_witness :
  consolidate_one causal_store (merge_match "a" "zz" "stock") = causal_store.
Proof.
  apply consolidate_one_skips_unresolvable. right. exists "Stock". split; [reflexivity|].
  right. reflexivity.
Defined.

Lemma zip_weight_zero (a b : Emb) :
  List.length a = List.length b ->
  veq (zipWith (fun x y => (x * 1 + y * inject_Z 0) / (1 + inject_Z 0)) a b) a.
Proof.
  revert b. induction a as [|x a IH]; intros [|y b] Hl; simpl in *; try discriminate;
    constructor.
  - unfold inject_Z, Qeq, Qdiv, Qmult, Qplus, Qinv. simpl. lia.
  - apply IH. congruence.
Qed.

(** Merging into a canonical node whose consolidation score is null or 0
    gives the canonical node's own embedding weight 0: its embedding is
    replaced by the absorbed node's (vectors of equal length), and the score
    goes from 0 to 1 or stays null. *)
Theorem merge_into_unscored_takes_absorbed_embedding (st : Store) (m : NodeMatch)
  (L : string) (nu nc : Node) (eu ec : Emb) :
  label_of (NodeType m) = Some L ->
  UnconsolidatedID m <> ConsolidatedID m ->
  find_node st L (UnconsolidatedID m) = Some nu ->
  find_node st L (ConsolidatedID m) = Some nc ->
  embedding nu = Some eu -> embedding nc = Some ec ->
  List.length eu = List.length ec ->
  score0 nc = 0%Z ->
  exists n' e', find_node (consolidate_one st m) L (ConsolidatedID m) = Some n' /\
    embedding n' = Some e' /\ veq e' eu /\
    cscore n' = option_map (Z.add 1) (cscore nc).
Proof.
  intros HL Hne Hu Hc Heu Hec Hlen Hs.
  destruct (merge_step st m L nu nc HL Hne Hu Hc) as (E & Hf & _).
  rewrite E, Hf. eexists. eexists. split; [reflexivity|]. split; [reflexivity|].
  split; [|reflexivity].
  unfold merged_embedding, calculateWeightedAverageEmbedding.
  rewrite Heu, Hec, Hs. cbn [convertEmbedding].
  rewrite Hlen, Nat.eqb_refl. cbn [negb]. apply zip_weight_zero. exact Hlen.
Qed.

Lemma merge_into_unscored_takes_absorbed_embedding_witness :
  exists n' e',
    find_node (consolidate_one
                 (mkStore [embedded_node "u" "Stock" [1; 2] 0; embedded_node "c" "Stock" [3; 4] 0] [])
                 (merge_match "u" "c" "stock")) "Stock" "c" = Some n' /\
    embedding n' = Some e' /\ veq e' [1; 2] /\ cscore n' = Some 1%Z.
Proof.
  apply (merge_into_unscored_takes_absorbed_embedding
           (mkStore [embedded_node "u" "Stock" [1; 2] 0; embedded_node "c" "Stock" [3; 4] 0] [])
           (merge_match "u" "c" "stock") "Stock"
           (embedded_node "u" "Stock" [1; 2] 0) (embedded_node "c" "Stock" [3; 4] 0)
           [1; 2] [3; 4]); reflexivity || discriminate.
Defined.

End NodePhase.


Section OngoingMatcher.
Import Graph Matcher Spec.
Local Open Scope string_scope.

Lemma ongoing_fold (cosine : Emb -> Emb -> result Q) (t : string) (cons : list Node)
  (u : Node) (l : list Node) : forall acc,
  incl l cons -> best_state cosine t cons u acc ->
  forall bm bs,
  fold_left (fun '(bm, bs) c =>
        match cosine (convertEmbedding (embedding u)) (convertEmbedding (embedding c)) with
        | Err _ => (bm, bs)
        | Ok score =>
            if negb (Qle_bool score bs)
            then (mkMatch (nid u) (nid c) t score "" "", score)
            else (bm, bs)
        end) l acc = (bm, bs) ->
  best_state cosine t cons u (bm, bs) /\ (snd acc <= bs)%Q /\
  (forall c s, In c l ->
     cosine (convertEmbedding (embedding u)) (convertEmbedding (embedding c)) = Ok s ->
     (s <= bs)%Q).
Proof.
  induction l as [|c l IH]; intros [bm0 bs0] Hincl Hst bm bs Ef; cbn [fold_left] in Ef.
  - injection Ef as <- <-. split; [exact Hst|]. split; [apply Qle_refl|]. intros c s [].
  - assert (Hl : incl l cons) by (intros x Hx; apply Hincl; right; exact Hx).
    destruct (cosine (convertEmbedding (embedding u)) (convertEmbedding (embedding c)))
      as [score|e] eqn:Ec.
    + destruct (Qle_bool score bs0) eqn:Hq; cbn [negb] in Ef.
      * destruct (IH (bm0, bs0) Hl Hst bm bs Ef) as (H1 & H2 & H3).
        split; [exact H1|]. split; [exact H2|].
        intros c' s [<- | Hc'] Hs; [|exact (H3 c' s Hc' Hs)].
        rewrite Ec in Hs. injection Hs as <-. apply Qle_bool_iff in Hq.
        exact (Qle_trans _ _ _ Hq H2).
      * assert (Hst' : best_state cosine t cons u
                         (mkMatch (nid u) (nid c) t score "" "", score)).
        { right. exists c. split; [apply Hincl; left; reflexivity|]. auto. }
        destruct (IH _ Hl Hst' bm bs Ef) as (H1 & H2 & H3).
        split; [exact H1|]. split.
        { apply Qle_trans with score; [|exact H2]. cbn [snd].
          apply Qlt_le_weak, Qnot_le_lt. intros Hle. apply Qle_bool_iff in Hle. congruence. }
        intros c' s [<- | Hc'] Hs; [|exact (H3 c' s Hc' Hs)].
        rewrite Ec in Hs. injection Hs as <-. exact H2.
    + destruct (IH (bm0, bs0) Hl Hst bm bs Ef) as (H1 & H2 & H3).
      split; [exact H1|]. split; [exact H2|].
      intros c' s [<- | Hc'] Hs; [congruence|exact (H3 c' s Hc' Hs)].
Qed.

Lemma Forall2_map_r {A B : Type} (P : A -> B -> Prop) (f : A -> B) (l : list A) :
  (forall x, In x l -> P x (f x)) -> Forall2 P l (map f l).
Proof.
  induction l as [|a l IH]; intros H; simpl; constructor.
  - apply H. left. reflexivity.
  - apply IH. intros x Hx. apply H. right. exact Hx.
Qed.

(** The subsequent-run branch of [findNodeMatches] (some consolidated node
    of the type exists) gives one match per unconsolidated node, in order:
    when the best similarity to a consolidated node reaches the threshold
    (itself above -1), a merge into a consolidated node of maximal
    similarity, carrying that similarity; otherwise a promotion with score
    1, every similarity to a consolidated node being below the threshold. *)
Theorem ongoing_matches_pick_best_or_promote (cosine : Emb -> Emb -> result Q)
  (threshold : Q) (t : string) (unc cons : list Node) :
  cons <> [] -> (-1 < threshold)%Q ->
  Forall2 (fun u m =>
      UnconsolidatedID m = nid u /\ NodeType m = t /\
      ((exists c, In c cons /\ ConsolidatedID m = nid c /\
          cosine (convertEmbedding (embedding u)) (convertEmbedding (embedding c)) =
            Ok (SimilarityScore m) /\
          (threshold <= SimilarityScore m)%Q /\
          forall c' s, In c' cons ->
            cosine (convertEmbedding (embedding u)) (convertEmbedding (embedding c')) = Ok s ->
            (s <= SimilarityScore m)%Q) \/
       (m = promotion t (nid u) /\
          forall c' s, In c' cons ->
            cosine (convertEmbedding (embedding u)) (convertEmbedding (embedding c')) = Ok s ->
            (s < threshold)%Q)))
    unc (matches_for_type cosine threshold t unc cons).
Proof.
  intros Hne Hth.
  assert (E : matches_for_type cosine threshold t unc cons =
              map (ongoing_one cosine threshold t cons) unc)
    by (destruct cons; [congruence|reflexivity]).
  rewrite E. apply Forall2_map_r. intros u _. unfold ongoing_one.
  destruct (fold_left _ _ _) as [bm bs] eqn:Ef.
  destruct (ongoing_fold cosine t cons u cons (zeroMatch, (-1)%Q) (incl_refl _)
              (or_introl eq_refl) bm bs Ef) as (Hst & _ & Hmax).
  destruct (Qle_bool threshold bs) eqn:Hq.
  - apply Qle_bool_iff in Hq.
    destruct Hst as [Hz | (c & Hc & Hcos & Hbm)].
    + injection Hz as _ ->. exfalso. exact (Qlt_not_le _ _ Hth Hq).
    + cbn [fst snd] in Hcos, Hbm. subst bm. cbn.
      split; [reflexivity|]. split; [reflexivity|]. left. exists c. auto.
  - cbn. split; [reflexivity|]. split; [reflexivity|]. right. split; [reflexivity|].
    intros c' s Hc' Hs. apply Qle_lt_trans with bs; [exact (Hmax c' s Hc' Hs)|].
    apply Qnot_le_lt. intros Hle. apply Qle_bool_iff in Hle. congruence.
Qed.

Lemma ongoing_matches_pick_best_or_promote_witness :
  matches_for_type dot_similarity similarityThreshold "stock" ongoing_unc ongoing_cons =
    [mkMatch "u1" "c2" "stock" 1 "" ""; promotion "stock" "u2"] /\
  Forall2 (fun u m =>
      UnconsolidatedID m = nid u /\ NodeType m = "stock" /\
      ((exists c, In c ongoing_cons /\ ConsolidatedID m = nid c /\
          dot_similarity (convertEmbedding (embedding u)) (convertEmbedding (embedding c)) =
            Ok (SimilarityScore m) /\
          (similarityThreshold <= SimilarityScore m)%Q /\
          forall c' s, In c' ongoing_cons ->
            dot_similarity (convertEmbedding (embedding u)) (convertEmbedding (embedding c')) = Ok s ->
            (s <= SimilarityScore m)%Q) \/
       (m = promotion "stock" (nid u) /\
          forall c' s, In c' ongoing_cons ->
            dot_similarity (convertEmbedding (embedding u)) (convertEmbedding (embedding c')) = Ok s ->
            (s < similarityThreshold)%Q)))
    ongoing_unc
    (matches_for_type dot_similarity similarityThreshold "stock" ongoing_unc ongoing_cons).
Proof.
  split; [vm_compute; reflexivity|].
  apply ongoing_matches_pick_best_or_promote.
  - discriminate.
  - reflexivity.
Defined.

End OngoingMatcher.

Section RelationshipFetch.
Import Graph Rewire.
Local Open Scope string_scope.

Lemma dedup_nodup (l : list string) : NoDup (dedup l).
Proof.
  induction l as [|x l IH]; simpl; constructor.
  - intros H. apply filter_In in H. destruct H as [_ H].
    rewrite String.eqb_refl in H. discriminate.
  - apply NoDup_filter. exact IH.
Qed.

Lemma dedup_in_iff (x : string) (l : list string) : In x (dedup l) -> In x l.
Proof.
  induction l as [|y l IH]; simpl; [tauto|]. intros [<- | H]; [left; reflexivity|].
  right. apply IH. apply filter_In in H. tauto.
Qed.

Lemma Permutation_filter_split {A : Type} (p : A -> bool) (l : list A) :
  Permutation (filter p l ++ filter (fun x => negb (p x)) l) l.
Proof.
  induction l as [|x l IH]; [reflexivity|]. simpl.
  destruct (p x); simpl.
  - constructor. exact IH.
  - apply Permutation_sym, Permutation_cons_app, Permutation_sym. exact IH.
Qed.

Lemma flat_map_ext_on {A B : Type} (f g : A -> list B) (l : list A) :
  (forall x, In x l -> f x = g x) -> flat_map f l = flat_map g l.
Proof.
  induction l as [|x l IH]; intros H; simpl; [reflexivity|].
  rewrite H by (left; reflexivity). rewrite IH; [reflexivity|].
  intros y Hy. apply H. right. exact Hy.
Qed.

(** Grouping by a key over a duplicate-free list of keys covering every
    element is a permutation. *)
Lemma group_by_key (K : list string) : forall (rs : list Rel),
  NoDup K -> (forall r, In r rs -> In (rtype r) K) ->
  Permutation (flat_map (fun t => map (fun r => mkRelRec t (rfrom r) (rto r))
                                      (filter (fun r => String.eqb (rtype r) t) rs)) K)
              (map (fun r => mkRelRec (rtype r) (rfrom r) (rto r)) rs).
Proof.
  induction K as [|k K IH]; intros rs Hnd Hcov; simpl.
  - destruct rs as [|r rs]; [reflexivity|]. destruct (Hcov r (or_introl eq_refl)).
  - apply NoDup_cons_iff in Hnd. destruct Hnd as [Hk Hnd].
    set (rest := filter (fun r => negb (String.eqb (rtype r) k)) rs).
    assert (Hsame : flat_map (fun t => map (fun r => mkRelRec t (rfrom r) (rto r))
                                          (filter (fun r => String.eqb (rtype r) t) rs)) K =
                    flat_map (fun t => map (fun r => mkRelRec t (rfrom r) (rto r))
                                          (filter (fun r => String.eqb (rtype r) t) rest)) K).
    { apply flat_map_ext_on. intros t Ht. f_equal. unfold rest.
      rewrite filter_filter_and. apply filter_ext. intros r.
      destruct (String.eqb_spec (rtype r) t) as [->|]; [|symmetry; apply andb_false_r].
      destruct (String.eqb_spec t k) as [->|]; [contradiction|reflexivity]. }
    rewrite Hsame.
    assert (Hk_map : map (fun r => mkRelRec k (rfrom r) (rto r))
                       (filter (fun r => String.eqb (rtype r) k) rs) =
                     map (fun r => mkRelRec (rtype r) (rfrom r) (rto r))
                       (filter (fun r => String.eqb (rtype r) k) rs)).
    { apply map_ext_in. intros r Hr. apply filter_In in Hr. destruct Hr as [_ Hr].
      apply String.eqb_eq in Hr. rewrite Hr. reflexivity. }
    rewrite Hk_map.
    apply Permutation_trans with
      (map (fun r => mkRelRec (rtype r) (rfrom r) (rto r))
           (filter (fun r => String.eqb (rtype r) k) rs ++ rest)).
    + rewrite map_app. apply Permutation_app_head. apply IH; [exact Hnd|].
      intros r Hr. unfold rest in Hr. apply filter_In in Hr. destruct Hr as [Hr Hn].
      destruct (Hcov r Hr) as [E|E]; [|exact E].
      rewrite E, String.eqb_refl in Hn. discriminate.
    + apply Permutation_map. apply Permutation_filter_split.
Qed.

(** [fetchUnconsolidatedRelationships] yields exactly one record per
    relationship not flagged [consolidated = true] (a null flag counts as
    not flagged), whatever its type, carrying its type and endpoints: the
    records are a permutation of those relationships, grouped by type. *)
Theorem fetch_rels_one_record_per_unflagged (st : Store) :
  Permutation (fetchUnconsolidatedRelationships st)
    (map (fun r => mkRelRec (rtype r) (rfrom r) (rto r))
         (filter unconsolidated_rel (rels st))).
Proof.
  unfold fetchUnconsolidatedRelationships. apply group_by_key.
  - apply dedup_nodup.
  - intros r Hr. apply dedup_in, in_map. exact Hr.
Qed.

End RelationshipFetch.

Section MergeShape.
Import Graph Spec.
Local Open Scope string_scope.

(** A merge removes the absorbed node [u] and every relationship touching
    it, keeps every other relationship, and keeps every node other than [u]
    and the canonical node [c] as it was. *)
Theorem merge_removes_only_absorbed_node (st : Store) (m : NodeMatch) (L : string)
  (nu nc : Node) :
  label_of (NodeType m) = Some L ->
  UnconsolidatedID m <> ConsolidatedID m ->
  find_node st L (UnconsolidatedID m) = Some nu ->
  find_node st L (ConsolidatedID m) = Some nc ->
  (forall n, In n (nodes (consolidate_one st m)) -> nid n <> UnconsolidatedID m) /\
  (forall r, In r (rels (consolidate_one st m)) -> incident (UnconsolidatedID m) r = false) /\
  (forall r, In r (rels st) -> incident (UnconsolidatedID m) r = false ->
     In r (rels (consolidate_one st m))) /\
  (forall n, In n (nodes st) -> nid n <> UnconsolidatedID m -> nid n <> ConsolidatedID m ->
     In n (nodes (consolidate_one st m))).
Proof.
  intros HL Hne Hu Hc.
  rewrite (proj1 (merge_step st m L nu nc HL Hne Hu Hc)).
  unfold merge_result, detach_delete. cbn [nodes rels].
  split; [|split; [|split]].
  - intros n Hn. apply filter_In in Hn. destruct Hn as [_ Hn].
    apply negb_true_iff, String.eqb_neq in Hn. exact Hn.
  - intros r Hr. apply filter_In in Hr. destruct Hr as [_ Hr].
    apply negb_true_iff in Hr. exact Hr.
  - intros r Hr Hi. apply filter_In. split; [|rewrite Hi; reflexivity].
    unfold transfer_rels. apply transfer_fold_mono. exact Hr.
  - intros n Hn Hnu Hnc. apply filter_In.
    split; [|apply negb_true_iff, String.eqb_neq; exact Hnu].
    rewrite transfer_rels_nodes. unfold set_node. cbn [nodes].
    apply in_map_iff. exists n. split; [|exact Hn].
    destruct (node_is L (ConsolidatedID m) n) eqn:E; [|reflexivity].
    apply node_is_iff in E. destruct E as [_ E]. contradiction.
Qed.

Lemma merge_removes_only_absorbed_node_witness :
  (forall n, In n (nodes (consolidate_one causal_store (merge_match "a" "x" "stock"))) ->
     nid n <> "a") /\
  (forall r, In r (rels (consolidate_one causal_store (merge_match "a" "x" "stock"))) ->
     incident "a" r = false) /\
  (forall r, In r (rels causal_store) -> incident "a" r = false ->
     In r (rels (consolidate_one causal_store (merge_match "a" "x" "stock")))) /\
  (forall n, In n (nodes causal_store) -> nid n <> "a" -> nid n <> "x" ->
     In n (nodes (consolidate_one causal_store (merge_match "a" "x" "stock")))).
Proof.
  exact (merge_removes_only_absorbed_node causal_store (merge_match "a" "x" "stock") "Stock"
           (fresh "a" "Stock") (fresh "x" "Stock") eq_refl
           ltac:(discriminate) eq_refl eq_refl).
Defined.

(** A relationship from the absorbed node [u] to its canonical node [c]
    becomes a self-loop on [c]: after the merge [c] has a relationship of the
    same type from itself to itself. *)
Theorem merge_edge_to_canonical_becomes_self_loop (st : Store) (m : NodeMatch) (L : string)
  (nu nc : Node) (r : Rel) :
  label_of (NodeType m) = Some L ->
  UnconsolidatedID m <> ConsolidatedID m ->
  find_node st L (UnconsolidatedID m) = Some nu ->
  find_node st L (ConsolidatedID m) = Some nc ->
  In r (rels st) -> rfrom r = UnconsolidatedID m -> rto r = ConsolidatedID m ->
  exists r', In r' (rels (consolidate_one st m)) /\
    triple r' = (rtype r, ConsolidatedID m, ConsolidatedID m).
Proof.
  intros HL Hne Hu Hc Hr Hf Ht.
  rewrite (proj1 (merge_step st m L nu nc HL Hne Hu Hc)).
  assert (Hinc : incident (UnconsolidatedID m) r = true)
    by (unfold incident; rewrite Hf, String.eqb_refl; reflexivity).
  assert (Hfu : String.eqb (rfrom r) (UnconsolidatedID m) = true)
    by (rewrite Hf; apply String.eqb_refl).
  destruct (merge_transfers st m L nu nc r Hc Hne Hr Hinc) as (r' & Hr' & Htr).
  - rewrite Hfu, Ht. intros E. apply Hne. symmetry. exact E.
  - rewrite Hfu, Ht. exact (find_node_exists _ _ _ _ Hc).
  - exists r'. split; [exact Hr'|]. rewrite Htr, Hfu, Ht. reflexivity.
Qed.

Lemma merge_edge_to_canonical_becomes_self_loop_witness :
  exists r', In r' (rels (consolidate_one
                            (mkStore [fresh "u" "Stock"; fresh "c" "Stock"]
                                     [fresh_rel "CHANGES" "u" "c" []])
                            (merge_match "u" "c" "stock"))) /\
    triple r' = ("CHANGES", "c", "c").
Proof.
  exact (merge_edge_to_canonical_becomes_self_loop
           (mkStore [fresh "u" "Stock"; fresh "c" "Stock"] [fresh_rel "CHANGES" "u" "c" []])
           (merge_match "u" "c" "stock") "Stock" (fresh "u" "Stock") (fresh "c" "Stock")
           (fresh_rel "CHANGES" "u" "c" []) eq_refl ltac:(discriminate) eq_refl eq_refl
           (or_introl eq_refl) eq_refl eq_refl).
Defined.

(** After a merge the canonical node's embedding has the length of the
    absorbed node's embedding (a missing embedding counting as empty),
    whether the two lengths agreed or not. *)
Theorem merge_embedding_takes_absorbed_dimension (st : Store) (m : NodeMatch) (L : string)
  (nu nc : Node) :
  label_of (NodeType m) = Some L ->
  UnconsolidatedID m <> ConsolidatedID m ->
  find_node st L (UnconsolidatedID m) = Some nu ->
  find_node st L (ConsolidatedID m) = Some nc ->
  exists n' e', find_node (consolidate_one st m) L (ConsolidatedID m) = Some n' /\
    embedding n' = Some e' /\
    List.length e' = List.length (convertEmbedding (embedding nu)).
Proof.
  intros HL Hne Hu Hc.
  destruct (merge_step st m L nu nc HL Hne Hu Hc) as (E & Hf & _).
  rewrite E, Hf. eexists. eexists. split; [reflexivity|]. split; [reflexivity|].
  unfold merged_embedding, calculateWeightedAverageEmbedding.
  destruct (Nat.eqb _ _) eqn:Hl; cbn [negb]; [|reflexivity].
  apply zip_length. apply Nat.eqb_eq. exact Hl.
Qed.

Lemma merge_embedding_takes_absorbed_dimension_witness :
  exists n' e',
    find_node (consolidate_one mismatch_store (merge_match "u" "c" "stock")) "Stock" "c" =
      Some n' /\ embedding n' = Some e' /\ List.length e' = 1%nat.
Proof.
  destruct (merge_embedding_takes_absorbed_dimension mismatch_store
              (merge_match "u" "c" "stock") "Stock"
              (embedded_node "u" "Stock" [3] 0) (embedded_node "c" "Stock" [1; 2] 1)
              eq_refl ltac:(discriminate) eq_refl eq_refl) as (n' & e' & H1 & H2 & H3).
  exists n', e'. split; [exact H1|]. split; [exact H2|]. exact H3.
Defined.

Lemma zip_same_weighted (e : Emb) (w1 w2 : Q) :
  ~ w1 + w2 == 0 ->
  veq (zipWith (fun x y => (x * w1 + y * w2) / (w1 + w2)) e e) e.
Proof.
  intros Hw. induction e as [|x e IH]; simpl; constructor; [|exact IH].
  field. exact Hw.
Qed.

(** Merging two nodes that carry the same embedding leaves the canonical
    node's embedding equal to it, whatever the canonical node's
    (non-negative) consolidation score. *)
Theorem merge_identical_embeddings_unchanged (st : Store) (m : NodeMatch) (L : string)
  (nu nc : Node) (e : Emb) :
  label_of (NodeType m) = Some L ->
  UnconsolidatedID m <> ConsolidatedID m ->
  find_node st L (UnconsolidatedID m) = Some nu ->
  find_node st L (ConsolidatedID m) = Some nc ->
  embedding nu = Some e -> embedding nc = Some e -> (0 <= score0 nc)%Z ->
  exists n' e', find_node (consolidate_one st m) L (ConsolidatedID m) = Some n' /\
    embedding n' = Some e' /\ veq e' e.
Proof.
  intros HL Hne Hu Hc Heu Hec Hs.
  destruct (merge_step st m L nu nc HL Hne Hu Hc) as (E & Hf & _).
  rewrite E, Hf. eexists. eexists. split; [reflexivity|]. split; [reflexivity|].
  unfold merged_embedding, calculateWeightedAverageEmbedding.
  rewrite Heu, Hec. cbn [convertEmbedding]. rewrite Nat.eqb_refl. cbn [negb].
  apply zip_same_weighted. apply pos_nonzero. exact Hs.
Qed.

Lemma merge_identical_embeddings_unchanged_witness :
  exists n' e',
    find_node (consolidate_one
                 (mkStore [embedded_node "u" "Stock" [1; 2] 0; embedded_node "c" "Stock" [1; 2] 3] [])
                 (merge_match "u" "c" "stock")) "Stock" "c" = Some n' /\
    embedding n' = Some e' /\ veq e' [1; 2].
Proof.
  apply (merge_identical_embeddings_unchanged
           (mkStore [embedded_node "u" "Stock" [1; 2] 0; embedded_node "c" "Stock" [1; 2] 3] [])
           (merge_match "u" "c" "stock") "Stock"
           (embedded_node "u" "Stock" [1; 2] 0) (embedded_node "c" "Stock" [1; 2] 3) [1; 2]);
    reflexivity || discriminate || (simpl; lia).
Defined.

(** Resetting twice is the same as resetting once. *)
Theorem ResetConsolidation_idempotent (st : Store) :
  Rewire.ResetConsolidation (Rewire.ResetConsolidation st) = Rewire.ResetConsolidation st.
Proof.
  unfold Rewire.ResetConsolidation. cbn [nodes rels]. rewrite !map_map. f_equal.
  - apply map_ext. intros n. unfold Rewire.reset_node at 1 3.
    destruct (existsb (String.eqb (label n)) Rewire.reset_node_labels &&
              match embedded n with Some true => true | _ => false end) eqn:E.
    + unfold Rewire.reset_node. rewrite E. cbn [label embedded]. rewrite E. reflexivity.
    + unfold Rewire.reset_node. rewrite E. rewrite E. reflexivity.
  - apply map_ext. intros r. unfold Rewire.reset_rel at 1 3.
    destruct (existsb (String.eqb (rtype r)) Rewire.reset_rel_types) eqn:E.
    + unfold Rewire.reset_rel. rewrite E. cbn [rtype]. rewrite E. reflexivity.
    + unfold Rewire.reset_rel. rewrite E. rewrite E. reflexivity.
Qed.

End MergeShape.
